(** * scipy.stats.contingency: marginals, expected frequencies,
      the chi-square test of independence and association measures.

    A shallow embedding of [src/scipy/stats/contingency.py].

    Modelling conventions.
    - An [ndarray] is a shape together with an indexing function; [ravel]
      lists its cells in row-major (C) order.
    - The code is read over two arithmetics.  [float64] is the exact one:
      a finite value is a rational number, no operation rounds, overflows
      or underflows, and the special values [PInf], [NInf] and [NaN] arise
      where IEEE arithmetic produces them from finite operands (division
      by zero, inf - inf, 0 * inf); zeros are unsigned.  It serves the
      properties that do not depend on rounding: which exception is
      raised, shapes, degrees of freedom, which values are passed on, and
      identities of exact arithmetic.  [binary64] is IEEE 754 double
      precision itself, with the module [IEEE] holding the code over it;
      it serves the properties of the numbers that NumPy computes.
    - An integer table is an int64 array: its cells are [Z], and
      [arr.sum()] wraps around modulo 2^64.  The sums taken after the
      conversion to float64 do not wrap.
    - Exceptions are values of [exn]; a NumPy primitive that can raise
      returns a [result].
    - [power_divergence] (imported from [scipy.stats.stats]) is external:
      a call to it is a node of the computation tree [comp]. *)

From Stdlib Require Import String List ZArith QArith Qcanon Qcabs Lia Lqa Bool.
From Stdlib Require Floats.
Import ListNotations.

Set Implicit Arguments.
Local Open Scope nat_scope.
Local Open Scope list_scope.

(* ================================================================== *)
(** ** Exceptions and results *)

Definition index := list nat.

Inductive exn : Type :=
| NegativeValue
    (* ValueError: All values in `observed` must be nonnegative. *)
| EmptyInput
    (* ValueError: No data; `observed` has size 0. *)
| DegenerateExpectedCell (zeropos : index)
    (* ValueError: The internally computed table of expected frequencies
       has a zero element at <zeropos>. *)
| WrongDtype
    (* ValueError: `observed` must be an integer array. *)
| WrongRank
    (* ValueError: method only accepts 2d arrays *)
| UnknownMethod
    (* ValueError: Invalid argument value: 'method' argument must be
       'cramer', 'tschuprow', or 'pearson' *)
| AxisError
    (* numpy: axis is out of bounds for the array *)
| ApplyOverAxesShape
    (* ValueError raised by np.apply_over_axes: function is not returning
       an array of the correct shape *)
| BroadcastError
    (* ValueError: operands could not be broadcast together *)
| ReduceEmpty
    (* TypeError: reduce() of empty sequence with no initial value *)
| IndexError
    (* IndexError: list index out of range *)
| MathDomainError
    (* ValueError: math domain error *)
| ExternalError.
    (* any exception raised inside power_divergence *)

Inductive result (A : Type) : Type :=
| Ok (a : A)
| Error (e : exn).
Arguments Error {A} e.

Definition rbind {A B} (r : result A) (f : A -> result B) : result B :=
  match r with
  | Ok a => f a
  | Error e => Error e
  end.

Notation "x <- r ;; k" := (rbind r (fun x => k))
  (at level 61, r at next level, right associativity).

Fixpoint mapM {A B} (f : A -> result B) (l : list A) : result (list B) :=
  match l with
  | [] => Ok []
  | x :: xs => y <- f x ;; ys <- mapM f xs ;; Ok (y :: ys)
  end.

(* ================================================================== *)
(** ** The float64 model *)

Inductive float64 : Type :=
| Fin (q : Qc)
| PInf
| NInf
| NaN.

Definition Qc_ltb (x y : Qc) : bool :=
  match (x ?= y)%Qc with Lt => true | _ => false end.
Definition Qc_eqb (x y : Qc) : bool :=
  match (x ?= y)%Qc with Eq => true | _ => false end.
Definition Qc_leb (x y : Qc) : bool :=
  match (x ?= y)%Qc with Gt => false | _ => true end.

Definition Qc_of_Z (z : Z) : Qc := Q2Qc (inject_Z z).
Definition Qc_half : Qc := Q2Qc (1 # 2).

Definition Qc_sign (x : Qc) : Qc :=
  if Qc_ltb x 0 then Qcopp 1%Qc else if Qc_ltb 0 x then 1%Qc else 0%Qc.
Definition Qc_min (x y : Qc) : Qc := if Qc_leb x y then x else y.

Module F64.

Definition zero : float64 := Fin 0%Qc.
Definition one : float64 := Fin 1%Qc.
Definition half : float64 := Fin Qc_half.
Definition of_Z (z : Z) : float64 := Fin (Qc_of_Z z).

Definition opp (x : float64) : float64 :=
  match x with
  | Fin a => Fin (- a)%Qc
  | PInf => NInf
  | NInf => PInf
  | NaN => NaN
  end.

Definition add (x y : float64) : float64 :=
  match x, y with
  | NaN, _ | _, NaN => NaN
  | PInf, NInf | NInf, PInf => NaN
  | PInf, _ | _, PInf => PInf
  | NInf, _ | _, NInf => NInf
  | Fin a, Fin b => Fin (a + b)%Qc
  end.

Definition sub (x y : float64) : float64 := add x (opp y).

(** The infinity whose sign is that of the finite factor [a]; [0 * inf]
    is NaN. *)
Definition inf_times (positive : bool) (a : Qc) : float64 :=
  if Qc_eqb a 0 then NaN
  else if Bool.eqb positive (Qc_ltb 0 a) then PInf else NInf.

Definition mul (x y : float64) : float64 :=
  match x, y with
  | NaN, _ | _, NaN => NaN
  | Fin a, Fin b => Fin (a * b)%Qc
  | PInf, Fin a | Fin a, PInf => inf_times true a
  | NInf, Fin a | Fin a, NInf => inf_times false a
  | PInf, PInf | NInf, NInf => PInf
  | PInf, NInf | NInf, PInf => NInf
  end.

(** True division.  NumPy does not raise on a zero divisor: x / 0 is
    +-inf, and 0 / 0 is NaN (a RuntimeWarning is emitted). *)
Definition div (x y : float64) : float64 :=
  match x, y with
  | NaN, _ | _, NaN => NaN
  | Fin a, Fin b =>
      if Qc_eqb b 0 then
        if Qc_eqb a 0 then NaN else if Qc_ltb 0 a then PInf else NInf
      else Fin (a / b)%Qc
  | Fin _, (PInf | NInf) => zero
  | PInf, Fin b => if Qc_ltb b 0 then NInf else PInf
  | NInf, Fin b => if Qc_ltb b 0 then PInf else NInf
  | (PInf | NInf), (PInf | NInf) => NaN
  end.

Fixpoint pow_nat (x : float64) (n : nat) : float64 :=
  match n with
  | O => one
  | S m => mul x (pow_nat x m)
  end.

(** [x ** n] for a Python integer exponent; [x ** 0] is 1.0 for every
    [x], NaN included. *)
Definition pow (x : float64) (n : Z) : float64 :=
  if (n <? 0)%Z then div one (pow_nat x (Z.to_nat (- n)))
  else pow_nat x (Z.to_nat n).

(** Comparisons with NaN are False. *)
Definition ltb (x y : float64) : bool :=
  match x, y with
  | NaN, _ | _, NaN => false
  | Fin a, Fin b => Qc_ltb a b
  | NInf, (Fin _ | PInf) => true
  | Fin _, PInf => true
  | _, _ => false
  end.

Definition eqb (x y : float64) : bool :=
  match x, y with
  | Fin a, Fin b => Qc_eqb a b
  | PInf, PInf | NInf, NInf => true
  | _, _ => false
  end.

Definition abs (x : float64) : float64 :=
  match x with
  | Fin a => Fin (Qcabs a)
  | PInf | NInf => PInf
  | NaN => NaN
  end.

(** np.sign *)
Definition sign (x : float64) : float64 :=
  match x with
  | Fin a => Fin (Qc_sign a)
  | PInf => one
  | NInf => opp one
  | NaN => NaN
  end.

(** np.minimum propagates NaN. *)
Definition minimum (x y : float64) : float64 :=
  match x, y with
  | NaN, _ | _, NaN => NaN
  | _, _ => if ltb y x then y else x
  end.

End F64.

(* ================================================================== *)
(** ** Element types of arrays *)

Class Numeric (A : Type) : Type := {
  num_zero : A;
  num_add : A -> A -> A;
}.

#[export] Instance Numeric_Z : Numeric Z :=
  {| num_zero := 0%Z; num_add := Z.add |}.
#[export] Instance Numeric_Qc : Numeric Qc :=
  {| num_zero := 0%Qc; num_add := Qcplus |}.
#[export] Instance Numeric_float64 : Numeric float64 :=
  {| num_zero := F64.zero; num_add := F64.add |}.

Definition sum_list {A} `{Numeric A} (l : list A) : A :=
  fold_right num_add num_zero l.

(** The sum of [f i] for [i] in [range(n)]. *)
Definition sum_range {A} `{Numeric A} (n : nat) (f : nat -> A) : A :=
  sum_list (map f (seq 0 n)).

(* ================================================================== *)
(** ** n-dimensional arrays *)

Record ndarray (A : Type) : Type := mk_ndarray {
  shape : list nat;
  item : index -> A;
}.
Arguments mk_ndarray {A} shape item.

Definition ndim {A} (a : ndarray A) : nat := length (shape a).

Definition prod_list (l : list nat) : nat := fold_right Nat.mul 1 l.

Definition size {A} (a : ndarray A) : nat := prod_list (shape a).

(** All index tuples of an array of shape [s], in row-major order. *)
Fixpoint indices (s : list nat) : list index :=
  match s with
  | [] => [[]]
  | d :: s' => flat_map (fun i => map (cons i) (indices s')) (seq 0 d)
  end.

Definition ravel {A} (a : ndarray A) : list A :=
  map (item a) (indices (shape a)).

(** Build a rank-1 and a rank-2 array from Python lists. *)
Definition array1 {A} (dflt : A) (l : list A) : ndarray A :=
  mk_ndarray [length l] (fun idx => nth (nth 0 idx 0) l dflt).

Definition array2 {A} (dflt : A) (rows : list (list A)) : ndarray A :=
  mk_ndarray [length rows; length (hd [] rows)]
    (fun idx => nth (nth 1 idx 0) (nth (nth 0 idx 0) rows []) dflt).

Definition amap {A B} (f : A -> B) (a : ndarray A) : ndarray B :=
  mk_ndarray (shape a) (fun idx => f (item a idx)).

(** [a.sum()] *)
Definition asum {A} `{Numeric A} (a : ndarray A) : A :=
  sum_list (ravel a).

(** [np.any(mask)] *)
Definition np_any (mask : ndarray bool) : bool :=
  existsb (fun b => b) (ravel mask).

(** [list(zip( *np.nonzero(mask)))]: the coordinates of the true cells, in
    row-major order. *)
Definition nonzero_coords (mask : ndarray bool) : list index :=
  filter (item mask) (indices (shape mask)).

(** *** Reduction along one axis *)

Definition insert_at {X} (axis : nat) (x : X) (l : list X) : list X :=
  firstn axis l ++ x :: skipn axis l.

Definition remove_at {X} (axis : nat) (l : list X) : list X :=
  firstn axis l ++ skipn (S axis) l.

(** [np.sum(a, axis)]: the axis is dropped from the shape. *)
Definition np_sum {A} `{Numeric A} (a : ndarray A) (axis : nat)
  : result (ndarray A) :=
  if axis <? ndim a then
    Ok (mk_ndarray (remove_at axis (shape a))
          (fun idx => sum_range (nth axis (shape a) 0)
                        (fun i => item a (insert_at axis i idx))))
  else Error AxisError.

(** [np.expand_dims(a, axis)] for [axis <= a.ndim]. *)
Definition expand_dims {A} (a : ndarray A) (axis : nat) : ndarray A :=
  mk_ndarray (insert_at axis 1 (shape a))
    (fun idx => item a (remove_at axis idx)).

(** [np.apply_over_axes(func, a, axes)]: [func] is applied along each axis
    in turn; when its result has lost the axis, the axis is put back with
    length 1. *)
Fixpoint apply_over_axes {A} (func : ndarray A -> nat -> result (ndarray A))
    (val : ndarray A) (axes : list nat) : result (ndarray A) :=
  match axes with
  | [] => Ok val
  | axis :: rest =>
      res <- func val axis ;;
      val' <- (if ndim res =? ndim val then Ok res
               else
                 let res' := expand_dims res axis in
                 if ndim res' =? ndim val then Ok res'
                 else Error ApplyOverAxesShape) ;;
      apply_over_axes func val' rest
  end.

(** *** Broadcasting *)

Definition broadcast_dim (d1 d2 : nat) : result nat :=
  if d1 =? d2 then Ok d1
  else if d1 =? 1 then Ok d2
  else if d2 =? 1 then Ok d1
  else Error BroadcastError.

Fixpoint broadcast_aligned (s1 s2 : list nat) : result (list nat) :=
  match s1, s2 with
  | d1 :: t1, d2 :: t2 =>
      d <- broadcast_dim d1 d2 ;; t <- broadcast_aligned t1 t2 ;; Ok (d :: t)
  | _, _ => Ok []
  end.

(** Shapes are aligned on their last axis; the shorter one is padded with
    ones on the left. *)
Definition pad_shape (n : nat) (s : list nat) : list nat :=
  repeat 1 (n - length s) ++ s.

Definition broadcast_shapes (s1 s2 : list nat) : result (list nat) :=
  let n := Nat.max (length s1) (length s2) in
  broadcast_aligned (pad_shape n s1) (pad_shape n s2).

Fixpoint clip_index (s : list nat) (idx : index) : index :=
  match s, idx with
  | d :: s', i :: idx' => (if d =? 1 then 0 else i) :: clip_index s' idx'
  | _, _ => []
  end.

(** The cell of an operand of shape [s] that is used at position [idx] of
    the broadcast result. *)
Definition broadcast_index (s : list nat) (idx : index) : index :=
  clip_index s (skipn (length idx - length s) idx).

Definition broadcast2 {A B C} (f : A -> B -> C)
    (a : ndarray A) (b : ndarray B) : result (ndarray C) :=
  s <- broadcast_shapes (shape a) (shape b) ;;
  Ok (mk_ndarray s
        (fun idx => f (item a (broadcast_index (shape a) idx))
                      (item b (broadcast_index (shape b) idx)))).

(** [functools.reduce(f, l)] without an initial value. *)
Definition reduce {A} (f : A -> A -> result A) (l : list A) : result A :=
  match l with
  | [] => Error ReduceEmpty
  | x :: xs => fold_left (fun acc y => a <- acc ;; f a y) xs (Ok x)
  end.

(* ================================================================== *)
(** ** Computations that may call the external [power_divergence] *)

(** The [lambda_] argument, passed through to [power_divergence]. *)
Inductive lambda_t : Type :=
| LambdaNone
| LambdaFloat (x : Qc)
| LambdaStr (s : string).

Inductive comp (A : Type) : Type :=
| Return (a : A)
| Raise (e : exn)
| PowerDivergence (f_obs f_exp : ndarray float64) (ddof : Z)
    (lambda_ : lambda_t) (k : float64 * float64 -> comp A).
Arguments Raise {A} e.
Arguments PowerDivergence {A} f_obs f_exp ddof lambda_ k.

Fixpoint cbind {A B} (c : comp A) (f : A -> comp B) : comp B :=
  match c with
  | Return a => f a
  | Raise e => Raise e
  | PowerDivergence o e d l k =>
      PowerDivergence o e d l (fun r => cbind (k r) f)
  end.

Definition lift {A} (r : result A) : comp A :=
  match r with
  | Ok a => Return a
  | Error e => Raise e
  end.

Notation "x <~ c ;; k" := (cbind c (fun x => k))
  (at level 61, c at next level, right associativity).

(** Running a computation against an implementation of
    [power_divergence(f_obs, f_exp, ddof, axis=None, lambda_)]. *)
Fixpoint run {A}
    (power_divergence : ndarray float64 -> ndarray float64 -> Z ->
                        lambda_t -> result (float64 * float64))
    (c : comp A) : result A :=
  match c with
  | Return a => Ok a
  | Raise e => Error e
  | PowerDivergence o e d l k =>
      match power_divergence o e d l with
      | Ok r => run power_divergence (k r)
      | Error x => Error x
      end
  end.

(* ================================================================== *)
(** ** Input tables *)

(** What [np.asarray(observed)] yields: an array of int64 (NumPy's default
    integer type) or an array of finite floating-point values, each of
    them a rational number. *)
Inductive array_like : Type :=
| IntArray (a : ndarray Z)
| FloatArray (a : ndarray Qc).

(** Arithmetic on int64 wraps around: [a.sum()] of an int64 array is the
    exact sum reduced modulo 2^64 to the range [-2^63, 2^63). *)
Definition wrap_int64 (z : Z) : Z :=
  ((z + 2 ^ 63) mod 2 ^ 64 - 2 ^ 63)%Z.

(** [arr.sum()] for an int64 array. *)
Definition int64_sum (arr : ndarray Z) : Z := wrap_int64 (asum arr).

(** [np.asarray(observed, dtype=np.float64)] *)
Definition astype_float64 (observed : array_like) : ndarray float64 :=
  match observed with
  | IntArray a => amap F64.of_Z a
  | FloatArray a => amap Fin a
  end.

(* ================================================================== *)
(** ** margins (contingency.py, lines 35-82) *)

Definition margins {A} `{Numeric A} (a : ndarray A)
  : result (list (ndarray A)) :=
  let ranged := seq 0 (ndim a) in
  mapM (fun k =>
          apply_over_axes np_sum a
            (filter (fun j => negb (j =? k)) ranged))
       ranged.

(* ================================================================== *)
(** ** expected_freq (lines 85-129) *)

Definition np_multiply (a b : ndarray float64) : result (ndarray float64) :=
  broadcast2 F64.mul a b.

Definition expected_freq (observed : array_like)
  : result (ndarray float64) :=
  let observed := astype_float64 observed in
  margsums <- margins observed ;;
  let d := ndim observed in
  numer <- reduce np_multiply margsums ;;
  let denom := F64.pow (asum observed) (Z.of_nat d - 1) in
  Ok (amap (fun x => F64.div x denom) numer).

(* ================================================================== *)
(** ** chi2_contingency (lines 132-300) *)

Definition sum_Z (l : list Z) : Z := fold_right Z.add 0%Z l.

(** [size - sum(shape) + ndim - 1], in Python integers. *)
Definition degrees_of_freedom {A} (expected : ndarray A) : Z :=
  (Z.of_nat (size expected) - sum_Z (map Z.of_nat (shape expected))
   + Z.of_nat (ndim expected) - 1)%Z.

(** Lines 291-294: Yates' correction for continuity. *)
Definition yates (expected observed : ndarray float64)
  : result (ndarray float64) :=
  diff <- broadcast2 F64.sub expected observed ;;
  let direction := amap F64.sign diff in
  let magnitude := amap (fun x => F64.minimum F64.half (F64.abs x)) diff in
  adjustment <- broadcast2 F64.mul magnitude direction ;;
  broadcast2 F64.add observed adjustment.

Definition chi2_contingency (observed : array_like) (correction : bool)
    (lambda_ : lambda_t)
  : comp (float64 * float64 * Z * ndarray float64) :=
  (* the cells of [np.asarray(observed)], read as floats *)
  let table := astype_float64 observed in
  if np_any (amap (fun x => F64.ltb x F64.zero) table) then
    Raise NegativeValue
  else if size table =? 0 then
    Raise EmptyInput
  else
    expected <~ lift (expected_freq observed) ;;
    if np_any (amap (fun x => F64.eqb x F64.zero) expected) then
      match nonzero_coords (amap (fun x => F64.eqb x F64.zero) expected) with
      | zeropos :: _ => Raise (DegenerateExpectedCell zeropos)
      | [] => Raise IndexError
      end
    else
      let dof := degrees_of_freedom expected in
      if (dof =? 0)%Z then
        Return (F64.zero, F64.one, dof, expected)
      else
        table <~ (if (dof =? 1)%Z && correction
                  then lift (yates expected table)
                  else Return table) ;;
        PowerDivergence table expected
          (Z.of_nat (size table) - 1 - dof)%Z lambda_
          (fun r => Return (fst r, snd r, dof, expected)).

(* ================================================================== *)
(** ** association (lines 303-401) *)

Section Association.

(** The square root of a nonnegative finite value, as [math.sqrt]
    computes it. *)
Variable sqrt_Qc : Qc -> Qc.

(** [math.sqrt]: NaN and +inf are returned unchanged, a negative
    argument raises ValueError. *)
Definition math_sqrt (x : float64) : result float64 :=
  match x with
  | NaN => Ok NaN
  | PInf => Ok PInf
  | NInf => Error MathDomainError
  | Fin a => if Qc_ltb a 0 then Error MathDomainError
             else Ok (Fin (sqrt_Qc a))
  end.

Definition association (observed : array_like) (method : string)
    (correction : bool) (lambda_ : lambda_t) : comp float64 :=
  match observed with
  | FloatArray _ => Raise WrongDtype
  | IntArray arr =>
      if negb (length (shape arr) =? 2) then Raise WrongRank
      else
        chi2_stat <~ chi2_contingency (IntArray arr) correction lambda_ ;;
        let chi2 := fst (fst (fst chi2_stat)) in
        let phi2 := F64.div chi2 (F64.of_Z (int64_sum arr)) in
        let n_rows := Z.of_nat (nth 0 (shape arr) 0) in
        let n_cols := Z.of_nat (nth 1 (shape arr) 0) in
        value <~
          (if String.eqb method "cramer" then
             Return (F64.div phi2
                       (F64.of_Z (Z.min (n_cols - 1) (n_rows - 1))))
           else if String.eqb method "tschuprow" then
             root <~ lift (math_sqrt
                             (F64.of_Z ((n_rows - 1) * (n_cols - 1)))) ;;
             Return (F64.div phi2 root)
           else if String.eqb method "pearson" then
             Return (F64.div phi2 (F64.add F64.one phi2))
           else Raise UnknownMethod) ;;
        lift (math_sqrt value)
  end.

End Association.

(* ================================================================== *)
(** ** Running the code on the documented examples *)

Definition Zs (rows : list (list Z)) : array_like := IntArray (array2 0%Z rows).

(** A printable view of a float64 value. *)
Inductive f64_view : Type := VFin (q : Q) | VPInf | VNInf | VNaN.
Definition view (x : float64) : f64_view :=
  match x with
  | Fin q => VFin (this q)
  | PInf => VPInf
  | NInf => VNInf
  | NaN => VNaN
  end.

(** A computable stand-in for the square root, exact on the squares of
    integers; it is used to run [association] on concrete tables. *)
Definition Qc_sqrt_floor (q : Qc) : Qc :=
  Q2Qc (Z.sqrt (Qnum q * Zpos (Qden q)) # Qden q).

(** A stand-in for [power_divergence] that always answers (100.0, 0.5). *)
Definition constant_divergence
    (f_obs f_exp : ndarray float64) (ddof : Z) (lambda_ : lambda_t)
  : result (float64 * float64) :=
  Ok (F64.of_Z 100, F64.half).

(** Does the computation stop at a call of [power_divergence]? *)
Definition is_call {A} (c : comp A) : bool :=
  match c with
  | PowerDivergence _ _ _ _ _ => true
  | _ => false
  end.

Definition is_ok {A} (r : result A) : bool :=
  match r with
  | Ok _ => true
  | Error _ => false
  end.

(* ================================================================== *)
(** ** Notions used to state the properties *)

(** Replacing coordinate [axis]: what [expand_dims] after [np.sum] does to
    an index. *)
Definition set_at {X} (axis : nat) (x : X) (l : list X) : list X :=
  insert_at axis x (remove_at axis l).

(** [np.sum(a, axis)] followed by [expand_dims(_, axis)], as one step of
    [apply_over_axes] performs it. *)
Definition sum_keepdims {A} `{Numeric A} (a : ndarray A) (axis : nat)
  : ndarray A :=
  mk_ndarray (set_at axis 1 (shape a))
    (fun idx => sum_range (nth axis (shape a) 0)
                  (fun i => item a (set_at axis i idx))).

(** The array [margins(a)[k]]. *)
Definition margin {A} `{Numeric A} (a : ndarray A) (k : nat) : ndarray A :=
  fold_left sum_keepdims
    (filter (fun j => negb (j =? k)) (seq 0 (ndim a))) a.

(** The shape of [margins(a)[k]]: every axis except [k] has length 1. *)
Fixpoint keep_axis (k : nat) (s : list nat) {struct s} : list nat :=
  match s with
  | [] => []
  | d :: s' =>
      match k with
      | 0 => d :: repeat 1 (length s')
      | S k' => 1 :: keep_axis k' s'
      end
  end.

(** The table summed over every axis except [k], in the words of the
    specification: cell [i] collects the cells of the table whose
    coordinate [k] is [i]. *)
Definition sum_except_axis {A} `{Numeric A} (a : ndarray A) (k i : nat) : A :=
  sum_list (map (item a)
              (filter (fun jdx => nth k jdx 0 =? i) (indices (shape a)))).

Class NumericLaws (A : Type) (NA : Numeric A) : Prop := {
  num_add_0_l : forall x : A, num_add num_zero x = x;
  num_add_comm : forall x y : A, num_add x y = num_add y x;
  num_add_assoc :
    forall x y z : A, num_add x (num_add y z) = num_add (num_add x y) z;
}.

(** The cells of an input table as exact rationals. *)
Definition table_values (observed : array_like) : ndarray Qc :=
  match observed with
  | IntArray a => amap Qc_of_Z a
  | FloatArray a => a
  end.

Definition Qc_prod (l : list Qc) : Qc := fold_right Qcmult 1%Qc l.

(** The shape of the product of the first [j] marginals. *)
Definition prefix_shape (j : nat) (s : list nat) : list nat :=
  firstn j s ++ repeat 1 (length s - j).

(** The product of the marginal sums that meet at cell [idx]. *)
Definition margin_product (q : ndarray Qc) (j : nat) (idx : index) : Qc :=
  Qc_prod (map (fun p => sum_except_axis q p (nth p idx 0)) (seq 0 j)).

(** [acc] is the broadcast product of the first [j] marginals of the
    table [q]. *)
Definition product_upto (q : ndarray Qc) (j : nat) (acc : ndarray float64)
  : Prop :=
  shape acc = prefix_shape j (shape q) /\
  forall idx,
    length idx = ndim q ->
    (forall p, p < j -> nth p idx 0 < nth p (shape q) 0) ->
    item acc idx = Fin (margin_product q j idx).

(** The in-range coordinates of a table, and the count at a coordinate. *)
Definition coordinates (observed : array_like) : list index :=
  indices (shape (table_values observed)).

Definition cell (observed : array_like) (idx : index) : Qc :=
  item (table_values observed) idx.

(** Lines 291-294 on one cell: the corrected value of an observed cell
    [o] whose expected frequency is [e]. *)
Definition yates_cell (e o : float64) : float64 :=
  F64.add o (F64.mul (F64.minimum F64.half (F64.abs (F64.sub e o)))
                     (F64.sign (F64.sub e o))).

(** The number of axes with more than one category. *)
Definition nontrivial_axes (s : list nat) : nat :=
  length (filter (fun d => 1 <? d) s).

(** The cell of [m] that broadcasting aligns with position [idx] of the
    result: the coordinates along the axes of length 1 are 0. *)
Definition broadcast_cell {A} (m : ndarray A) (idx : index) : A :=
  item m (clip_index (shape m) idx).

(** [functools.reduce(op, ms)] at position [idx], for a broadcasting
    operation [op]: the aligned cells are combined from the first array to
    the last. *)
Definition broadcast_fold {A} (f : A -> A -> A) (ms : list (ndarray A))
    (idx : index) : option A :=
  match ms with
  | [] => None
  | m :: rest =>
      Some (fold_left f (map (fun m' => broadcast_cell m' idx) rest)
              (broadcast_cell m idx))
  end.

(* ================================================================== *)
(** ** IEEE 754 binary64 arithmetic *)

(** NumPy's float64 is the IEEE 754 binary64 format.  [binary64] is the
    primitive type of that format: its operations round to the nearest
    double (ties to even), overflow to an infinity, underflow gradually
    and keep the sign of a zero; there is one NaN. *)
Definition binary64 : Type := PrimFloat.float.

Module B64.

Import PrimFloat.

Definition zero : binary64 := 0%float.
Definition one : binary64 := 1%float.
Definition half : binary64 := 0.5%float.

(** The double nearest to an integer: the conversion of an int64 or of a
    Python integer to float64. *)
Definition of_Z (z : Z) : binary64 :=
  FloatOps.SF2Prim
    (SpecFloat.binary_normalize FloatOps.prec FloatOps.emax z 0 false).

(** The double nearest to the quotient [n / d] of two positive
    integers. *)
Definition round_quotient (negative : bool) (n d : positive)
  : SpecFloat.spec_float :=
  let '(m, e, l) :=
    SpecFloat.SFdiv_core_binary FloatOps.prec FloatOps.emax
      (Zpos n) 0 (Zpos d) 0 in
  SpecFloat.binary_round_aux FloatOps.prec FloatOps.emax negative m e l.

(** The double nearest to a rational number; a rational that is a double
    is read exactly. *)
Definition of_Q (q : Qc) : binary64 :=
  match Qnum q with
  | Z0 => zero
  | Zpos n => FloatOps.SF2Prim (round_quotient false n (Qden q))
  | Zneg n => FloatOps.SF2Prim (round_quotient true n (Qden q))
  end.

Definition opp (x : binary64) : binary64 := (- x)%float.
Definition add (x y : binary64) : binary64 := (x + y)%float.
Definition sub (x y : binary64) : binary64 := (x - y)%float.
Definition mul (x y : binary64) : binary64 := (x * y)%float.

(** True division; NumPy does not raise on a zero divisor. *)
Definition div (x y : binary64) : binary64 := (x / y)%float.

(** Comparisons with NaN are False; -0.0 == 0.0. *)
Definition ltb (x y : binary64) : bool := (x <? y)%float.
Definition leb (x y : binary64) : bool := (x <=? y)%float.
Definition eqb (x y : binary64) : bool := (x =? y)%float.
Definition is_nan (x : binary64) : bool := negb (x =? x)%float.

Definition abs (x : binary64) : binary64 := PrimFloat.abs x.
Definition sqrt (x : binary64) : binary64 := PrimFloat.sqrt x.

Fixpoint pow_nat (x : binary64) (n : nat) : binary64 :=
  match n with
  | O => one
  | S m => mul x (pow_nat x m)
  end.

(** [x ** n] for a Python integer exponent, by repeated multiplication:
    [x ** 0] is 1.0 and [x ** 1] is [x] for every [x], as with the C
    library; for larger exponents the C library may round otherwise. *)
Definition pow (x : binary64) (n : Z) : binary64 :=
  if (n <? 0)%Z then div one (pow_nat x (Z.to_nat (- n)))
  else pow_nat x (Z.to_nat n).

(** np.sign: 1.0, -1.0 or 0.0, and NaN for NaN. *)
Definition sign (x : binary64) : binary64 :=
  if ltb zero x then one
  else if ltb x zero then opp one
  else if eqb x zero then zero
  else x.

(** np.minimum: the first argument when it is NaN or not greater than
    the second, else the second. *)
Definition minimum (x y : binary64) : binary64 :=
  if leb x y || is_nan x then x else y.

End B64.

(* ================================================================== *)
(** ** The code over binary64 *)

(** The four functions again, computed as NumPy computes them: the
    arithmetic is that of [B64], and an integer table is compared with 0
    as integers. *)
Module IEEE.

(** The cells of a reduction added in index order, starting from 0.0,
    whatever the shape and the axis; this is how NumPy adds fewer than
    eight cells. *)
Definition sum_in_order (s : list nat) (axis : option nat)
    (l : list binary64) : binary64 :=
  fold_left B64.add l B64.zero.

Section Reductions.

(** [add_reduce s axis l] is the double that NumPy obtains when it adds
    the cells [l], listed in index order, in the reduction of an array of
    shape [s] along [axis] ([None]: over all the axes).  The order in
    which NumPy performs the additions depends on the number of cells and
    on their distance in memory (eight or more contiguous cells are added
    pairwise, in blocks), and every addition rounds, so the reduction is
    a parameter of the model.  [power x n] is [x ** n] for a float64 [x]
    and a Python integer [n], computed by the C library. *)
Variable add_reduce : list nat -> option nat -> list binary64 -> binary64.
Variable power : binary64 -> Z -> binary64.

(** [a.sum()] *)
Definition asum (a : ndarray binary64) : binary64 :=
  add_reduce (shape a) None (ravel a).

Definition np_sum (a : ndarray binary64) (axis : nat)
  : result (ndarray binary64) :=
  if axis <? ndim a then
    Ok (mk_ndarray (remove_at axis (shape a))
          (fun idx =>
             add_reduce (shape a) (Some axis)
               (map (fun i => item a (insert_at axis i idx))
                  (seq 0 (nth axis (shape a) 0)))))
  else Error AxisError.

(** [np.asarray(observed, dtype=np.float64)] *)
Definition astype_float64 (observed : array_like) : ndarray binary64 :=
  match observed with
  | IntArray a => amap B64.of_Z a
  | FloatArray a => amap B64.of_Q a
  end.

Definition margins (a : ndarray binary64) : result (list (ndarray binary64)) :=
  let ranged := seq 0 (ndim a) in
  mapM (fun k =>
          apply_over_axes np_sum a
            (filter (fun j => negb (j =? k)) ranged))
       ranged.

Definition np_multiply (a b : ndarray binary64) : result (ndarray binary64) :=
  broadcast2 B64.mul a b.

Definition expected_freq (observed : array_like)
  : result (ndarray binary64) :=
  let observed := astype_float64 observed in
  margsums <- margins observed ;;
  let d := ndim observed in
  numer <- reduce np_multiply margsums ;;
  let denom := power (asum observed) (Z.of_nat d - 1) in
  Ok (amap (fun x => B64.div x denom) numer).

(** Lines 291-294: Yates' correction for continuity. *)
Definition yates (expected observed : ndarray binary64)
  : result (ndarray binary64) :=
  diff <- broadcast2 B64.sub expected observed ;;
  let direction := amap B64.sign diff in
  let magnitude := amap (fun x => B64.minimum B64.half (B64.abs x)) diff in
  adjustment <- broadcast2 B64.mul magnitude direction ;;
  broadcast2 B64.add observed adjustment.

Inductive comp (A : Type) : Type :=
| Return (a : A)
| Raise (e : exn)
| PowerDivergence (f_obs f_exp : ndarray binary64) (ddof : Z)
    (lambda_ : lambda_t) (k : binary64 * binary64 -> comp A).
Arguments Raise {A} e.
Arguments PowerDivergence {A} f_obs f_exp ddof lambda_ k.

Fixpoint cbind {A B} (c : comp A) (f : A -> comp B) : comp B :=
  match c with
  | Return a => f a
  | Raise e => Raise e
  | PowerDivergence o e d l k =>
      PowerDivergence o e d l (fun r => cbind (k r) f)
  end.

Definition lift {A} (r : result A) : comp A :=
  match r with
  | Ok a => Return a
  | Error e => Raise e
  end.

Fixpoint run {A}
    (power_divergence : ndarray binary64 -> ndarray binary64 -> Z ->
                        lambda_t -> result (binary64 * binary64))
    (c : comp A) : result A :=
  match c with
  | Return a => Ok a
  | Raise e => Error e
  | PowerDivergence o e d l k =>
      match power_divergence o e d l with
      | Ok r => run power_divergence (k r)
      | Error x => Error x
      end
  end.

(** [np.any(observed < 0)], on the array as [np.asarray] reads it. *)
Definition any_negative (observed : array_like) : bool :=
  match observed with
  | IntArray a => np_any (amap (fun z => (z <? 0)%Z) a)
  | FloatArray a =>
      np_any (amap (fun x => B64.ltb (B64.of_Q x) B64.zero) a)
  end.

Definition chi2_contingency (observed : array_like) (correction : bool)
    (lambda_ : lambda_t)
  : comp (binary64 * binary64 * Z * ndarray binary64) :=
  if any_negative observed then Raise NegativeValue
  else if size (astype_float64 observed) =? 0 then Raise EmptyInput
  else
    cbind (lift (expected_freq observed)) (fun expected =>
    if np_any (amap (fun x => B64.eqb x B64.zero) expected) then
      match nonzero_coords (amap (fun x => B64.eqb x B64.zero) expected) with
      | zeropos :: _ => Raise (DegenerateExpectedCell zeropos)
      | [] => Raise IndexError
      end
    else
      let dof := degrees_of_freedom expected in
      if (dof =? 0)%Z then Return (B64.zero, B64.one, dof, expected)
      else
        cbind (if (dof =? 1)%Z && correction
               then lift (yates expected (astype_float64 observed))
               else Return (astype_float64 observed)) (fun table =>
        PowerDivergence table expected
          (Z.of_nat (size table) - 1 - dof)%Z lambda_
          (fun r => Return (fst r, snd r, dof, expected)))).

(** [math.sqrt]: a negative argument raises ValueError; NaN, the
    infinity and the zeros are returned unchanged. *)
Definition math_sqrt (x : binary64) : result binary64 :=
  if B64.ltb x B64.zero then Error MathDomainError else Ok (B64.sqrt x).

Definition association (observed : array_like) (method : string)
    (correction : bool) (lambda_ : lambda_t) : comp binary64 :=
  match observed with
  | FloatArray _ => Raise WrongDtype
  | IntArray arr =>
      if negb (length (shape arr) =? 2) then Raise WrongRank
      else
        cbind (chi2_contingency (IntArray arr) correction lambda_)
          (fun chi2_stat =>
        let chi2 := fst (fst (fst chi2_stat)) in
        let phi2 := B64.div chi2 (B64.of_Z (int64_sum arr)) in
        let n_rows := Z.of_nat (nth 0 (shape arr) 0) in
        let n_cols := Z.of_nat (nth 1 (shape arr) 0) in
        cbind
          (if String.eqb method "cramer" then
             Return (B64.div phi2
                       (B64.of_Z (Z.min (n_cols - 1) (n_rows - 1))))
           else if String.eqb method "tschuprow" then
             cbind (lift (math_sqrt
                            (B64.of_Z ((n_rows - 1) * (n_cols - 1)))))
               (fun root => Return (B64.div phi2 root))
           else if String.eqb method "pearson" then
             Return (B64.div phi2 (B64.add B64.one phi2))
           else Raise UnknownMethod)
          (fun value => lift (math_sqrt value)))
  end.

(** The tables passed to [power_divergence], cell by cell. *)
Definition call_tables {A} (c : comp A)
  : option (list binary64 * list binary64) :=
  match c with
  | PowerDivergence f_obs f_exp _ _ _ => Some (ravel f_obs, ravel f_exp)
  | _ => None
  end.

(** [np.sum(a, axis)] followed by [expand_dims(_, axis)], as one step of
    [apply_over_axes] performs it, and the array [margins(a)[k]]. *)
Definition sum_keepdims (a : ndarray binary64) (axis : nat)
  : ndarray binary64 :=
  mk_ndarray (set_at axis 1 (shape a))
    (fun idx =>
       add_reduce (shape a) (Some axis)
         (map (fun i => item a (set_at axis i idx))
            (seq 0 (nth axis (shape a) 0)))).

Definition margin (a : ndarray binary64) (k : nat) : ndarray binary64 :=
  fold_left sum_keepdims
    (filter (fun j => negb (j =? k)) (seq 0 (ndim a))) a.

(** Lines 292-294 on one cell: [magnitude * direction] for the difference
    [d = expected - observed], and the corrected value of an observed
    cell [o] whose expected frequency is [e]. *)
Definition adjustment (d : binary64) : binary64 :=
  B64.mul (B64.minimum B64.half (B64.abs d)) (B64.sign d).

Definition yates_cell (e o : binary64) : binary64 :=
  B64.add o (adjustment (B64.sub e o)).

(** Does the computation stop at a call of [power_divergence]? *)
Definition is_call {A} (c : comp A) : bool :=
  match c with
  | PowerDivergence _ _ _ _ _ => true
  | _ => false
  end.

End Reductions.

End IEEE.

(** A table of floats given by the rationals they are. *)
Definition Qs (rows : list (list Q)) : array_like :=
  FloatArray (array2 0%Qc (map (map Q2Qc) rows)).

(** A finite non-zero double with sign bit [s]. *)
Definition finite_with_sign (d : binary64) (s : bool) : Prop :=
  exists m e, FloatOps.Prim2SF d = SpecFloat.S754_finite s m e.

(* ================================================================== *)
(** ** Index arithmetic *)


Lemma length_insert_at {X} (axis : nat) (x : X) (l : list X) :
  length (insert_at axis x l) = S (length l).
Proof.
  unfold insert_at.
  pose proof (f_equal (@length X) (firstn_skipn axis l)) as E.
  rewrite length_app in E. rewrite length_app; simpl. lia.
Qed.

Lemma length_remove_at {X} (axis : nat) (l : list X) :
  axis < length l -> length (remove_at axis l) = length l - 1.
Proof.
  intros Hlt. unfold remove_at.
  rewrite length_app, length_firstn, length_skipn. lia.
Qed.

Lemma length_set_at {X} (axis : nat) (x : X) (l : list X) :
  axis < length l -> length (set_at axis x l) = length l.
Proof.
  intros Hlt. unfold set_at.
  rewrite length_insert_at, length_remove_at by assumption. lia.
Qed.

Lemma set_at_0 {X} (x y : X) (l : list X) : set_at 0 x (y :: l) = x :: l.
Proof. reflexivity. Qed.

Lemma set_at_S {X} (axis : nat) (x y : X) (l : list X) :
  set_at (S axis) x (y :: l) = y :: set_at axis x l.
Proof. reflexivity. Qed.



Lemma mapM_total {A B} (f : A -> result B) (g : A -> B) (l : list A) :
  (forall x, In x l -> f x = Ok (g x)) -> mapM f l = Ok (map g l).
Proof.
  induction l as [|x xs IH]; intros Hf; simpl.
  - reflexivity.
  - rewrite (Hf x) by (left; reflexivity). simpl.
    rewrite IH by (intros y Hy; apply Hf; right; exact Hy).
    reflexivity.
Qed.

Section SumOverAxes.

Context {A : Type} `{NA : Numeric A}.

Lemma ndim_sum_keepdims (a : ndarray A) (axis : nat) :
  axis < ndim a -> ndim (sum_keepdims a axis) = ndim a.
Proof.
  intros Hlt. unfold ndim, sum_keepdims; simpl.
  apply length_set_at. exact Hlt.
Qed.

Lemma apply_over_axes_step (a : ndarray A) (axis : nat) (rest : list nat) :
  axis < ndim a ->
  apply_over_axes np_sum a (axis :: rest)
  = apply_over_axes np_sum (sum_keepdims a axis) rest.
Proof.
  intros Hlt. simpl. unfold np_sum.
  apply Nat.ltb_lt in Hlt as Hb. rewrite Hb. simpl.
  unfold ndim at 1 2. simpl.
  rewrite length_remove_at by exact Hlt.
  unfold ndim in Hlt.
  destruct (length (shape a) - 1 =? length (shape a)) eqn:E.
  - apply Nat.eqb_eq in E. lia.
  - unfold ndim at 1 2. simpl.
    rewrite length_insert_at, length_remove_at by exact Hlt.
    replace (S (length (shape a) - 1)) with (length (shape a)) by lia.
    rewrite Nat.eqb_refl. simpl. reflexivity.
Qed.

(** With valid axes [apply_over_axes(np.sum, a, axes)] does not raise. *)
Lemma apply_over_axes_np_sum (axes : list nat) :
  forall a : ndarray A,
    Forall (fun j => j < ndim a) axes ->
    apply_over_axes np_sum a axes = Ok (fold_left sum_keepdims axes a).
Proof.
  induction axes as [|j axes IH]; intros a Hall.
  - reflexivity.
  - inversion Hall as [|? ? Hj Hrest]; subst.
    rewrite apply_over_axes_step by exact Hj.
    simpl fold_left. apply IH.
    rewrite ndim_sum_keepdims by exact Hj. exact Hrest.
Qed.


Lemma margins_ok (a : ndarray A) :
  margins a = Ok (map (margin a) (seq 0 (ndim a))).
Proof.
  unfold margins. apply mapM_total.
  intros k _. unfold margin. apply apply_over_axes_np_sum.
  apply Forall_forall. intros j Hj.
  apply filter_In in Hj. destruct Hj as [Hj _].
  apply in_seq in Hj. lia.
Qed.

End SumOverAxes.

(* ================================================================== *)
(** ** Sums in a commutative monoid *)


#[export] Instance NumericLaws_Z : NumericLaws Numeric_Z.
Proof. split; simpl; intros; lia. Qed.

#[export] Instance NumericLaws_Qc : NumericLaws Numeric_Qc.
Proof.
  split; simpl; intros.
  - apply Qcplus_0_l.
  - apply Qcplus_comm.
  - apply Qcplus_assoc.
Qed.

#[export] Instance NumericLaws_float64 : NumericLaws Numeric_float64.
Proof.
  split; simpl.
  - intros [a| | |]; simpl; try reflexivity.
    now rewrite Qcplus_0_l.
  - intros [a| | |] [b| | |]; simpl; try reflexivity.
    now rewrite Qcplus_comm.
  - intros [a| | |] [b| | |] [c| | |]; simpl; try reflexivity.
    now rewrite Qcplus_assoc.
Qed.

Lemma filter_map_comm {X Y} (p : Y -> bool) (g : X -> Y) (l : list X) :
  filter p (map g l) = map g (filter (fun x => p (g x)) l).
Proof.
  induction l as [|x xs IH]; simpl.
  - reflexivity.
  - destruct (p (g x)); simpl; now rewrite IH.
Qed.

Lemma other_axes_0 (n : nat) :
  filter (fun j => negb (j =? 0)) (seq 0 (S n)) = map S (seq 0 n).
Proof.
  simpl. rewrite <- seq_shift, filter_map_comm. simpl.
  f_equal. induction (seq 0 n) as [|x xs IH]; simpl; congruence.
Qed.

Lemma other_axes_S (k n : nat) :
  filter (fun j => negb (j =? S k)) (seq 0 (S n))
  = 0 :: map S (filter (fun j => negb (j =? k)) (seq 0 n)).
Proof.
  simpl. f_equal. rewrite <- seq_shift, filter_map_comm. reflexivity.
Qed.

Section Sums.

Context {A : Type} {NA : Numeric A} {LA : NumericLaws NA}.

Lemma num_add_0_r (x : A) : num_add x num_zero = x.
Proof. rewrite num_add_comm. apply num_add_0_l. Qed.

Lemma sum_list_app (l1 l2 : list A) :
  sum_list (l1 ++ l2) = num_add (sum_list l1) (sum_list l2).
Proof.
  induction l1 as [|x xs IH]; simpl.
  - now rewrite num_add_0_l.
  - fold (sum_list (xs ++ l2)). fold (sum_list xs).
    now rewrite IH, num_add_assoc.
Qed.

Lemma sum_list_map_add {X} (f g : X -> A) (l : list X) :
  sum_list (map (fun x => num_add (f x) (g x)) l)
  = num_add (sum_list (map f l)) (sum_list (map g l)).
Proof.
  induction l as [|x xs IH]; simpl.
  - now rewrite num_add_0_l.
  - fold (sum_list (map (fun x => num_add (f x) (g x)) xs)).
    fold (sum_list (map f xs)). fold (sum_list (map g xs)).
    rewrite IH.
    rewrite <- !num_add_assoc. f_equal.
    rewrite !num_add_assoc. f_equal. apply num_add_comm.
Qed.

Lemma sum_list_map_zero {X} (l : list X) :
  sum_list (map (fun _ => num_zero) l) = (num_zero : A).
Proof.
  induction l as [|x xs IH]; simpl.
  - reflexivity.
  - fold (sum_list (map (fun _ : X => (num_zero : A)) xs)).
    now rewrite IH, num_add_0_l.
Qed.

Lemma sum_list_ext {X} (f g : X -> A) (l : list X) :
  (forall x, In x l -> f x = g x) ->
  sum_list (map f l) = sum_list (map g l).
Proof. intros Hfg. f_equal. apply map_ext_in. exact Hfg. Qed.

Lemma sum_list_flat_map {X Y} (h : X -> list Y) (f : Y -> A) (l : list X) :
  sum_list (map f (flat_map h l))
  = sum_list (map (fun x => sum_list (map f (h x))) l).
Proof.
  induction l as [|x xs IH]; simpl.
  - reflexivity.
  - rewrite map_app, sum_list_app, IH. reflexivity.
Qed.

(** Exchanging two finite sums. *)
Lemma sum_list_swap {X Y} (g : X -> Y -> A) (l1 : list X) (l2 : list Y) :
  sum_list (map (fun x => sum_list (map (g x) l2)) l1)
  = sum_list (map (fun y => sum_list (map (fun x => g x y) l1)) l2).
Proof.
  induction l1 as [|x xs IH]; simpl.
  - now rewrite sum_list_map_zero.
  - fold (sum_list (map (fun x => sum_list (map (g x) l2)) xs)).
    rewrite IH. symmetry.
    apply (sum_list_map_add (g x)
             (fun y => sum_list (map (fun x0 => g x0 y) xs))).
Qed.


(** A sum with a single non-zero term. *)
Lemma sum_list_single (x : A) (i : nat) (l : list nat) :
  NoDup l -> In i l ->
  sum_list (map (fun j => if i =? j then x else num_zero) l) = x.
Proof.
  induction l as [|j js IH]; intros Hnd Hin.
  - destruct Hin.
  - inversion Hnd as [|? ? Hnotin Hnd']; subst. simpl.
    fold (sum_list (map (fun j => if i =? j then x else num_zero) js)).
    destruct (Nat.eqb_spec i j) as [->|Hne].
    + assert (E : sum_list (map (fun j0 => if j =? j0 then x else num_zero)
                              js) = num_zero).
      { transitivity (sum_list (map (fun _ : nat => (num_zero : A)) js)).
        - apply sum_list_ext. intros j' Hj'.
          destruct (Nat.eqb_spec j j') as [->|_];
            [contradiction|reflexivity].
        - apply sum_list_map_zero. }
      rewrite E. apply num_add_0_r.
    + rewrite num_add_0_l. apply IH; [exact Hnd'|].
      destruct Hin as [->|Hin]; [contradiction|exact Hin].
Qed.

Lemma sum_indices_cons (f : index -> A) (d : nat) (s : list nat) :
  sum_list (map f (indices (d :: s)))
  = sum_range d (fun i => sum_list (map (fun t => f (i :: t)) (indices s))).
Proof.
  simpl. rewrite sum_list_flat_map. unfold sum_range.
  apply sum_list_ext. intros i _. now rewrite map_map.
Qed.

End Sums.

(* ================================================================== *)
(** ** Index tuples of a shape *)

Lemma in_indices_cons (i d : nat) (t : index) (s : list nat) :
  In (i :: t) (indices (d :: s)) <-> i < d /\ In t (indices s).
Proof.
  simpl. rewrite in_flat_map. split.
  - intros (j & Hj & Hin). apply in_map_iff in Hin.
    destruct Hin as (t' & Heq & Ht'). inversion Heq; subst.
    apply in_seq in Hj. split; [lia | exact Ht'].
  - intros [Hlt Hin]. exists i. split.
    + apply in_seq. lia.
    + apply in_map. exact Hin.
Qed.

Lemma in_indices_inv (idx : index) (d : nat) (s : list nat) :
  In idx (indices (d :: s)) ->
  exists i t, idx = i :: t /\ i < d /\ In t (indices s).
Proof.
  intros Hin. simpl in Hin. apply in_flat_map in Hin.
  destruct Hin as (i & Hi & Hin). apply in_map_iff in Hin.
  destruct Hin as (t & Heq & Ht). exists i, t.
  apply in_seq in Hi. repeat split; [congruence | lia | exact Ht].
Qed.

Lemma in_indices_length (s : list nat) :
  forall idx, In idx (indices s) -> length idx = length s.
Proof.
  induction s as [|d s IH]; intros idx Hin.
  - destruct Hin as [<-|[]]. reflexivity.
  - apply in_indices_inv in Hin. destruct Hin as (i & t & -> & _ & Ht).
    simpl. f_equal. apply IH. exact Ht.
Qed.

Lemma in_indices_nth (s : list nat) :
  forall idx p, In idx (indices s) -> p < length s ->
                nth p idx 0 < nth p s 0.
Proof.
  induction s as [|d s IH]; intros idx p Hin Hp.
  - simpl in Hp. lia.
  - apply in_indices_inv in Hin. destruct Hin as (i & t & -> & Hi & Ht).
    destruct p as [|p]; simpl.
    + exact Hi.
    + apply IH; [exact Ht | simpl in Hp; lia].
Qed.

Lemma indices_in_range (s : list nat) :
  forall idx, length idx = length s ->
              (forall p, p < length s -> nth p idx 0 < nth p s 0) ->
              In idx (indices s).
Proof.
  induction s as [|d s IH]; intros idx Hlen Hnth.
  - destruct idx; [left; reflexivity | discriminate].
  - destruct idx as [|i t]; [discriminate|].
    apply in_indices_cons. split.
    + apply (Hnth 0). simpl. lia.
    + apply IH.
      * simpl in Hlen. lia.
      * intros p Hp. apply (Hnth (S p)). simpl. lia.
Qed.

Lemma filter_const_true {X} (l : list X) : filter (fun _ => true) l = l.
Proof. induction l as [|x xs IH]; simpl; congruence. Qed.

Lemma filter_const_false {X} (l : list X) : filter (fun _ => false) l = [].
Proof. induction l as [|x xs IH]; simpl; congruence. Qed.

Lemma filter_flat_map {X Y} (p : Y -> bool) (h : X -> list Y) (l : list X) :
  filter p (flat_map h l) = flat_map (fun x => filter p (h x)) l.
Proof.
  induction l as [|x xs IH]; simpl.
  - reflexivity.
  - now rewrite filter_app, IH.
Qed.

Lemma length_indices (s : list nat) : length (indices s) = prod_list s.
Proof.
  induction s as [|d s IH]; simpl.
  - reflexivity.
  - change (prod_list (d :: s)) with (d * prod_list s).
    rewrite <- IH. generalize 0 as start.
    induction d as [|d IHd]; intros start.
    + reflexivity.
    + change (length (map (cons start) (indices s)
                      ++ flat_map (fun i => map (cons i) (indices s))
                           (seq (S start) d))
              = length (indices s) + d * length (indices s)).
      rewrite length_app, length_map. f_equal. apply IHd.
Qed.

Section Marginals.

Context {A : Type} {NA : Numeric A} {LA : NumericLaws NA}.

Lemma sum_filter_indices_cons (f : index -> A) (p : index -> bool)
    (d : nat) (s : list nat) :
  sum_list (map f (filter p (indices (d :: s))))
  = sum_range d (fun i =>
      sum_list (map (fun t => f (i :: t))
                  (filter (fun t => p (i :: t)) (indices s)))).
Proof.
  simpl. rewrite filter_flat_map, sum_list_flat_map. unfold sum_range.
  apply sum_list_ext. intros i _.
  now rewrite filter_map_comm, map_map.
Qed.

(** Summing over axes [j+1] of [a] is summing over axes [j] of each
    sub-array [a[i]]. *)
Lemma fold_sum_keepdims_shift (axes : list nat) :
  forall (d : nat) (s : list nat) (f : index -> A) (i : nat) (idx : index),
    item (fold_left sum_keepdims (map S axes) (mk_ndarray (d :: s) f))
         (i :: idx)
    = item (fold_left sum_keepdims axes
              (mk_ndarray s (fun t => f (i :: t)))) idx.
Proof.
  induction axes as [|j axes IH]; intros d s f i idx.
  - reflexivity.
  - simpl map. simpl fold_left.
    change (sum_keepdims (mk_ndarray (d :: s) f) (S j))
      with (mk_ndarray (d :: set_at j 1 s)
              (fun t => sum_range (nth j s 0)
                          (fun i' => f (set_at (S j) i' t)))).
    rewrite IH. reflexivity.
Qed.

Lemma shape_fold_sum_keepdims_shift (axes : list nat) :
  forall (d : nat) (s : list nat) (f : index -> A) (i : nat),
    shape (fold_left sum_keepdims (map S axes) (mk_ndarray (d :: s) f))
    = d :: shape (fold_left sum_keepdims axes
                    (mk_ndarray s (fun t => f (i :: t)))).
Proof.
  induction axes as [|j axes IH]; intros d s f i.
  - reflexivity.
  - simpl map. simpl fold_left.
    change (sum_keepdims (mk_ndarray (d :: s) f) (S j))
      with (mk_ndarray (d :: set_at j 1 s)
              (fun t => sum_range (nth j s 0)
                          (fun i' => f (set_at (S j) i' t)))).
    rewrite (IH _ _ _ i). reflexivity.
Qed.

(** Summing over every axis leaves the grand total in each cell. *)
Lemma sum_all_axes (s : list nat) :
  forall (f : index -> A) (idx : index),
    length idx = length s ->
    item (fold_left sum_keepdims (seq 0 (length s)) (mk_ndarray s f)) idx
    = sum_list (map f (indices s)).
Proof.
  induction s as [|d s IH]; intros f idx Hlen.
  - destruct idx; [|discriminate]. simpl. symmetry. apply num_add_0_r.
  - destruct idx as [|i t]; [discriminate|].
    simpl length. rewrite <- cons_seq, <- seq_shift.
    simpl fold_left.
    change (sum_keepdims (mk_ndarray (d :: s) f) 0)
      with (mk_ndarray (1 :: s)
              (fun t => sum_range d (fun i' => f (set_at 0 i' t)))).
    rewrite fold_sum_keepdims_shift.
    rewrite IH by (simpl in Hlen; lia).
    rewrite sum_indices_cons. unfold sum_range.
    apply (sum_list_swap (fun t' i' => f (i' :: t'))).
Qed.

(** [margins(a)[k]] at an index whose coordinate [k] is [i] holds the sum
    of the cells of [a] whose coordinate [k] is [i]. *)
Lemma margin_item (s : list nat) :
  forall (f : index -> A) (k : nat) (idx : index),
    k < length s -> length idx = length s ->
    nth k idx 0 < nth k s 0 ->
    item (margin (mk_ndarray s f) k) idx
    = sum_list (map f (filter (fun jdx => nth k jdx 0 =? nth k idx 0)
                         (indices s))).
Proof.
  induction s as [|d s IH]; intros f k idx Hk Hlen Hin.
  - simpl in Hk. lia.
  - destruct idx as [|i t]; [discriminate|].
    unfold margin. unfold ndim. simpl shape. simpl length.
    rewrite sum_filter_indices_cons.
    destruct k as [|k].
    + rewrite other_axes_0, fold_sum_keepdims_shift.
      rewrite sum_all_axes by (simpl in Hlen; lia).
      simpl in Hin. simpl nth. unfold sum_range.
      transitivity
        (sum_list
           (map (fun i' => if i =? i'
                           then sum_list (map (fun t' => f (i :: t'))
                                            (indices s))
                           else num_zero) (seq 0 d))).
      * symmetry. apply sum_list_single; [apply seq_NoDup|].
        apply in_seq. lia.
      * apply sum_list_ext. intros i' _.
        rewrite (Nat.eqb_sym i' i).
        destruct (Nat.eqb_spec i i') as [->|Hne].
        -- now rewrite filter_const_true.
        -- now rewrite filter_const_false.
    + rewrite other_axes_S. simpl fold_left.
      change (sum_keepdims (mk_ndarray (d :: s) f) 0)
        with (mk_ndarray (1 :: s)
                (fun t => sum_range d (fun i' => f (set_at 0 i' t)))).
      rewrite fold_sum_keepdims_shift.
      simpl in Hk, Hlen, Hin.
      pose proof (IH (fun t' => sum_range d (fun i' => f (i' :: t')))
                    k t) as IHk.
      unfold margin, ndim in IHk. simpl shape in IHk.
      change (fun t0 : index =>
                sum_range d (fun i' => f (set_at 0 i' (i :: t0))))
        with (fun t0 : index => sum_range d (fun i' => f (i' :: t0))).
      rewrite IHk by lia. simpl nth. unfold sum_range.
      apply (sum_list_swap (fun t' i' => f (i' :: t'))).
Qed.

End Marginals.


Lemma length_keep_axis (s : list nat) :
  forall k, length (keep_axis k s) = length s.
Proof.
  induction s as [|d s IH]; intros k; simpl.
  - reflexivity.
  - destruct k; simpl; [now rewrite repeat_length | now rewrite IH].
Qed.

Lemma nth_repeat_1 (n p : nat) : p < n -> nth p (repeat 1 n) 0 = 1.
Proof.
  revert p. induction n as [|n IH]; intros p Hp; [lia|].
  destruct p; simpl; [reflexivity | apply IH; lia].
Qed.

Lemma nth_keep_axis (s : list nat) :
  forall k p, p < length s ->
              nth p (keep_axis k s) 0 = if p =? k then nth k s 0 else 1.
Proof.
  induction s as [|d s IH]; intros k p Hp; simpl in Hp; [lia|].
  destruct k as [|k], p as [|p]; simpl; try reflexivity.
  - apply nth_repeat_1. lia.
  - apply IH. lia.
Qed.




Section MarginalShapes.

Context {A : Type} {NA : Numeric A}.

Lemma shape_sum_all_axes (s : list nat) :
  forall f : index -> A,
    shape (fold_left sum_keepdims (seq 0 (length s)) (mk_ndarray s f))
    = repeat 1 (length s).
Proof.
  induction s as [|d s IH]; intros f.
  - reflexivity.
  - simpl length. rewrite <- cons_seq, <- seq_shift. simpl fold_left.
    change (sum_keepdims (mk_ndarray (d :: s) f) 0)
      with (mk_ndarray (1 :: s)
              (fun t => sum_range d (fun i' => f (set_at 0 i' t)))).
    rewrite (shape_fold_sum_keepdims_shift _ _ _ _ 0), IH.
    reflexivity.
Qed.

Lemma shape_margin (s : list nat) :
  forall (f : index -> A) (k : nat),
    k < length s ->
    shape (margin (mk_ndarray s f) k) = keep_axis k s.
Proof.
  induction s as [|d s IH]; intros f k Hk; simpl in Hk; [lia|].
  change (margin (mk_ndarray (d :: s) f) k)
    with (fold_left sum_keepdims
            (filter (fun j => negb (j =? k)) (seq 0 (S (length s))))
            (mk_ndarray (d :: s) f)).
  destruct k as [|k].
  - rewrite other_axes_0, (shape_fold_sum_keepdims_shift _ _ _ _ 0).
    rewrite shape_sum_all_axes. reflexivity.
  - rewrite other_axes_S. simpl fold_left.
    change (sum_keepdims (mk_ndarray (d :: s) f) 0)
      with (mk_ndarray (1 :: s)
              (fun t => sum_range d (fun i' => f (set_at 0 i' t)))).
    rewrite (shape_fold_sum_keepdims_shift _ _ _ _ 0).
    pose proof (IH (fun t => sum_range d (fun i' => f (set_at 0 i' (0 :: t))))
                  k) as IHk.
    unfold margin, ndim in IHk. simpl shape in IHk.
    rewrite IHk by lia. reflexivity.
Qed.

End MarginalShapes.

Section MarginalTotals.

Context {A : Type} {NA : Numeric A} {LA : NumericLaws NA}.



End MarginalTotals.

(* ================================================================== *)
(** ** Properties of [margins] *)

Section MarginsSpec.

Context {A : Type} {NA : Numeric A} {LA : NumericLaws NA}.

Lemma margin_sum_except_axis (a : ndarray A) (k : nat) (idx : index) :
  k < ndim a -> length idx = ndim a ->
  nth k idx 0 < nth k (shape a) 0 ->
  item (margin a k) idx = sum_except_axis a k (nth k idx 0).
Proof.
  destruct a as [s f]. unfold ndim. simpl shape. intros Hk Hlen Hin.
  rewrite margin_item by assumption. reflexivity.
Qed.



End MarginsSpec.

(* ================================================================== *)
(** ** Finite values inside float64 *)

Lemma astype_float64_values (observed : array_like) :
  astype_float64 observed = amap Fin (table_values observed).
Proof. destruct observed; reflexivity. Qed.

Lemma sum_list_Fin (l : list Qc) : sum_list (map Fin l) = Fin (sum_list l).
Proof.
  induction l as [|x xs IH]; simpl.
  - reflexivity.
  - fold (sum_list (map Fin xs)). rewrite IH. reflexivity.
Qed.

Lemma asum_amap_Fin (q : ndarray Qc) : asum (amap Fin q) = Fin (asum q).
Proof.
  unfold asum, ravel. simpl. rewrite <- sum_list_Fin, map_map. reflexivity.
Qed.

Lemma sum_except_axis_Fin (q : ndarray Qc) (k i : nat) :
  sum_except_axis (amap Fin q) k i = Fin (sum_except_axis q k i).
Proof.
  unfold sum_except_axis. simpl. rewrite <- sum_list_Fin, map_map.
  reflexivity.
Qed.

Lemma pow_nat_Fin (x : Qc) (n : nat) :
  F64.pow_nat (Fin x) n = Fin (x ^ n)%Qc.
Proof.
  induction n as [|n IH]; simpl.
  - reflexivity.
  - rewrite IH. reflexivity.
Qed.

Lemma Qc_eqb_eq (x y : Qc) : Qc_eqb x y = true <-> x = y.
Proof.
  unfold Qc_eqb. rewrite Qceq_alt.
  destruct (x ?= y)%Qc; split; congruence.
Qed.

Lemma Qc_eqb_neq (x y : Qc) : Qc_eqb x y = false <-> x <> y.
Proof.
  rewrite <- Qc_eqb_eq. destruct (Qc_eqb x y); split; congruence.
Qed.

Lemma Qc_ltb_lt (x y : Qc) : Qc_ltb x y = true <-> (x < y)%Qc.
Proof.
  unfold Qc_ltb. rewrite Qclt_alt.
  destruct (x ?= y)%Qc; split; congruence.
Qed.

Lemma Qc_ltb_ge (x y : Qc) : Qc_ltb x y = false <-> (y <= x)%Qc.
Proof.
  pose proof (Qc_ltb_lt x y) as Hlt.
  destruct (Qc_ltb x y); split; intros H; try reflexivity.
  - discriminate.
  - exfalso. apply (Qcle_not_lt _ _ H). now apply Hlt.
  - apply Qcnot_lt_le. intros Hxy. apply Hlt in Hxy. discriminate.
Qed.

Lemma div_Fin (x y : Qc) : y <> 0%Qc -> F64.div (Fin x) (Fin y) = Fin (x / y).
Proof.
  intros Hy. simpl. apply Qc_eqb_neq in Hy. now rewrite Hy.
Qed.

Lemma Qc_prod_app (l1 l2 : list Qc) :
  Qc_prod (l1 ++ l2) = (Qc_prod l1 * Qc_prod l2)%Qc.
Proof.
  induction l1 as [|x xs IH]; simpl.
  - now rewrite Qcmult_1_l.
  - fold (Qc_prod (xs ++ l2)). fold (Qc_prod xs).
    now rewrite IH, Qcmult_assoc.
Qed.

(* ================================================================== *)
(** ** Broadcasting arrays of equal rank *)

Lemma broadcast_shapes_same_rank (s1 s2 : list nat) :
  length s1 = length s2 ->
  broadcast_shapes s1 s2 = broadcast_aligned s1 s2.
Proof.
  intros Hlen. unfold broadcast_shapes, pad_shape.
  rewrite Hlen, Nat.max_id, Nat.sub_diag. reflexivity.
Qed.

Lemma broadcast_index_same_rank (s : list nat) (idx : index) :
  length idx = length s -> broadcast_index s idx = clip_index s idx.
Proof.
  intros Hlen. unfold broadcast_index.
  now rewrite Hlen, Nat.sub_diag.
Qed.

Lemma length_clip_index (s : list nat) :
  forall idx, length idx = length s -> length (clip_index s idx) = length s.
Proof.
  induction s as [|d s IH]; intros [|i idx] Hlen; simpl in *;
    try reflexivity; try discriminate.
  f_equal. apply IH. lia.
Qed.

Lemma nth_clip_index (s : list nat) :
  forall idx p, length idx = length s -> p < length s ->
    nth p (clip_index s idx) 0 = if nth p s 0 =? 1 then 0 else nth p idx 0.
Proof.
  induction s as [|d s IH]; intros [|i idx] p Hlen Hp; simpl in *;
    try lia; try discriminate.
  destruct p as [|p].
  - reflexivity.
  - apply IH; lia.
Qed.

(** Clipping does not move a coordinate that is within the bounds of the
    table. *)
Lemma nth_clip_index_in_range (s' s : list nat) (idx : index) (p : nat) :
  length idx = length s' -> p < length s' ->
  (nth p s' 0 = nth p s 0 \/ nth p s' 0 <> 1) ->
  nth p idx 0 < nth p s 0 ->
  nth p (clip_index s' idx) 0 = nth p idx 0.
Proof.
  intros Hlen Hp Hdim Hin.
  rewrite nth_clip_index by assumption.
  destruct (Nat.eqb_spec (nth p s' 0) 1) as [E|E]; [|reflexivity].
  destruct Hdim as [Hd|Hd]; [lia|contradiction].
Qed.

Lemma clip_index_in_range (s : list nat) :
  forall idx, In idx (indices s) -> clip_index s idx = idx.
Proof.
  induction s as [|d s IH]; intros idx Hin.
  - destruct Hin as [<-|[]]. reflexivity.
  - apply in_indices_inv in Hin. destruct Hin as (i & t & -> & Hi & Ht).
    simpl. rewrite (IH t Ht).
    destruct (Nat.eqb_spec d 1) as [->|_]; [|reflexivity].
    f_equal. lia.
Qed.

Lemma broadcast_aligned_same (s : list nat) : broadcast_aligned s s = Ok s.
Proof.
  induction s as [|d s IH]; simpl.
  - reflexivity.
  - unfold broadcast_dim. rewrite Nat.eqb_refl. simpl. now rewrite IH.
Qed.

Lemma length_prefix_shape (j : nat) (s : list nat) :
  j <= length s -> length (prefix_shape j s) = length s.
Proof.
  intros Hj. unfold prefix_shape.
  rewrite length_app, length_firstn, repeat_length. lia.
Qed.

Lemma nth_prefix_shape (j p : nat) (s : list nat) :
  p < j -> j <= length s -> nth p (prefix_shape j s) 0 = nth p s 0.
Proof.
  intros Hp Hj. unfold prefix_shape.
  rewrite app_nth1 by (rewrite length_firstn; lia).
  rewrite <- (firstn_skipn j s) at 2.
  rewrite app_nth1 by (rewrite length_firstn; lia).
  reflexivity.
Qed.

Lemma prefix_shape_all (s : list nat) : prefix_shape (length s) s = s.
Proof.
  unfold prefix_shape.
  now rewrite firstn_all, Nat.sub_diag, app_nil_r.
Qed.

Lemma keep_axis_0 (d : nat) (s : list nat) :
  keep_axis 0 (d :: s) = prefix_shape 1 (d :: s).
Proof.
  unfold prefix_shape. simpl. now rewrite Nat.sub_0_r.
Qed.

Lemma broadcast_prefix_keep_axis (s : list nat) :
  forall j, j < length s ->
    broadcast_aligned (prefix_shape j s) (keep_axis j s)
    = Ok (prefix_shape (S j) s).
Proof.
  induction s as [|d s IH]; intros j Hj; simpl in Hj; [lia|].
  destruct j as [|j].
  - unfold prefix_shape. simpl. rewrite Nat.sub_0_r.
    rewrite broadcast_aligned_same. simpl.
    unfold broadcast_dim. simpl.
    destruct d as [|[|d]]; reflexivity.
  - change (prefix_shape (S j) (d :: s)) with (d :: prefix_shape j s).
    change (prefix_shape (S (S j)) (d :: s)) with (d :: prefix_shape (S j) s).
    simpl. rewrite IH by lia.
    unfold broadcast_dim.
    destruct (Nat.eqb_spec d 1) as [->|_]; reflexivity.
Qed.

(* ================================================================== *)
(** ** The cells of the table of expected frequencies *)

Lemma shape_margin_of {A} `{Numeric A} (a : ndarray A) (k : nat) :
  k < ndim a -> shape (margin a k) = keep_axis k (shape a).
Proof. destruct a as [s f]. apply shape_margin. Qed.

Section ExpectedCells.

Variable q : ndarray Qc.

Lemma margin_Fin_item (k : nat) (idx : index) :
  k < ndim q -> length idx = ndim q ->
  nth k idx 0 < nth k (shape q) 0 ->
  item (margin (amap Fin q) k) idx
  = Fin (sum_except_axis q k (nth k idx 0)).
Proof.
  intros Hk Hlen Hin.
  rewrite (@margin_sum_except_axis _ _ _ (amap Fin q) k idx) by assumption.
  apply sum_except_axis_Fin.
Qed.

Lemma margin_product_ext (j : nat) (idx idx' : index) :
  (forall p, p < j -> nth p idx' 0 = nth p idx 0) ->
  margin_product q j idx' = margin_product q j idx.
Proof.
  intros Hsame. unfold margin_product. f_equal.
  apply map_ext_in. intros p Hp. apply in_seq in Hp.
  rewrite Hsame by lia. reflexivity.
Qed.

Lemma margin_product_S (j : nat) (idx : index) :
  margin_product q (S j) idx
  = (margin_product q j idx * sum_except_axis q j (nth j idx 0%nat))%Qc.
Proof.
  unfold margin_product. rewrite seq_S, map_app, Qc_prod_app. simpl.
  now rewrite Qcmult_1_r.
Qed.

Lemma product_upto_first :
  1 <= ndim q -> product_upto q 1 (margin (amap Fin q) 0).
Proof.
  intros Hn. split.
  - rewrite shape_margin_of by exact Hn. simpl shape.
    unfold ndim in Hn. destruct (shape q) as [|d s]; [simpl in Hn; lia|].
    apply keep_axis_0.
  - intros idx Hlen Hin.
    rewrite margin_Fin_item; [|exact Hn|exact Hlen|apply Hin; lia].
    rewrite margin_product_S. unfold margin_product at 1. simpl.
    now rewrite Qcmult_1_l.
Qed.

Lemma product_upto_step (j : nat) (acc : ndarray float64) :
  j < ndim q -> product_upto q j acc ->
  exists acc', np_multiply acc (margin (amap Fin q) j) = Ok acc' /\
               product_upto q (S j) acc'.
Proof.
  intros Hj [Hshape Hitem]. unfold ndim in Hj.
  assert (Hm : shape (margin (amap Fin q) j) = keep_axis j (shape q)).
  { now rewrite shape_margin_of by exact Hj. }
  unfold np_multiply, broadcast2. rewrite Hshape, Hm.
  rewrite broadcast_shapes_same_rank
    by (rewrite length_prefix_shape, length_keep_axis; lia).
  rewrite broadcast_prefix_keep_axis by exact Hj. simpl.
  eexists. split; [reflexivity|]. split; [reflexivity|].
  intros idx Hlen Hin. simpl item. unfold ndim in Hlen.
  rewrite !broadcast_index_same_rank
    by (rewrite ?length_prefix_shape, ?length_keep_axis; lia).
  rewrite Hitem.
  - rewrite margin_Fin_item.
    + simpl. f_equal. rewrite margin_product_S. f_equal.
      * apply margin_product_ext. intros p Hp.
        apply nth_clip_index_in_range with (s := shape q).
        -- rewrite length_prefix_shape; lia.
        -- rewrite length_prefix_shape; lia.
        -- left. apply nth_prefix_shape; lia.
        -- apply Hin. lia.
      * f_equal.
        apply nth_clip_index_in_range with (s := shape q).
        -- rewrite length_keep_axis; lia.
        -- rewrite length_keep_axis; lia.
        -- left. rewrite nth_keep_axis, Nat.eqb_refl by exact Hj.
           reflexivity.
        -- apply Hin. lia.
    + exact Hj.
    + unfold ndim. rewrite length_clip_index; rewrite length_keep_axis; lia.
    + rewrite nth_clip_index_in_range with (s := shape q).
      * apply Hin. lia.
      * rewrite length_keep_axis; lia.
      * rewrite length_keep_axis; lia.
      * left. rewrite nth_keep_axis, Nat.eqb_refl by exact Hj. reflexivity.
      * apply Hin. lia.
  - unfold ndim. rewrite length_clip_index; rewrite length_prefix_shape; lia.
  - intros p Hp.
    rewrite nth_clip_index_in_range with (s := shape q).
    + apply Hin. lia.
    + rewrite length_prefix_shape; lia.
    + rewrite length_prefix_shape; lia.
    + left. apply nth_prefix_shape; lia.
    + apply Hin. lia.
Qed.

Lemma product_fold (m : nat) :
  forall (j : nat) (acc : ndarray float64),
    j + m = ndim q -> product_upto q j acc ->
    exists r,
      fold_left (fun acc y => a <- acc ;; np_multiply a y)
        (map (margin (amap Fin q)) (seq j m)) (Ok acc) = Ok r /\
      product_upto q (ndim q) r.
Proof.
  induction m as [|m IH]; intros j acc Hjm Hacc.
  - exists acc. split; [reflexivity|].
    replace (ndim q) with j by lia. exact Hacc.
  - simpl.
    assert (Hlt : j < ndim q) by lia.
    destruct (product_upto_step Hlt Hacc) as (acc' & Hmul & Hacc').
    rewrite Hmul. apply IH; [lia | exact Hacc'].
Qed.

Lemma reduce_margins :
  1 <= ndim q ->
  exists r,
    reduce np_multiply (map (margin (amap Fin q)) (seq 0 (ndim q))) = Ok r /\
    product_upto q (ndim q) r.
Proof.
  intros Hn. destruct (ndim q) as [|n] eqn:En; [lia|].
  simpl. rewrite <- En.
  apply product_fold; [lia|].
  apply product_upto_first. lia.
Qed.

End ExpectedCells.

(** Every cell of [expected_freq(observed)] is the product of the marginal
    sums through the cell, divided by [total ** (ndim - 1)]. *)
Lemma expected_freq_cells (observed : array_like) :
  let q := table_values observed in
  1 <= ndim q ->
  exists expected,
    expected_freq observed = Ok expected /\
    shape expected = shape q /\
    forall idx, In idx (indices (shape q)) ->
      item expected idx
      = F64.div (Fin (margin_product q (ndim q) idx))
                (Fin (asum q ^ (ndim q - 1))%Qc).
Proof.
  intros q Hn. unfold expected_freq.
  rewrite astype_float64_values. fold q.
  rewrite margins_ok.
  change (ndim (amap Fin q)) with (ndim q).
  destruct (reduce_margins q Hn) as (r & Hred & Hshape & Hitem).
  simpl rbind. rewrite Hred. simpl rbind.
  eexists. split; [reflexivity|]. split.
  - simpl. rewrite Hshape. apply prefix_shape_all.
  - intros idx Hin. simpl item.
    rewrite Hitem.
    + f_equal. rewrite asum_amap_Fin. unfold F64.pow.
      destruct (Z.ltb_spec (Z.of_nat (ndim q) - 1) 0) as [Hneg|_]; [lia|].
      rewrite pow_nat_Fin. do 2 f_equal. lia.
    + apply in_indices_length. exact Hin.
    + intros p Hp. apply in_indices_nth; [exact Hin | exact Hp].
Qed.

(* ================================================================== *)
(** ** Total count of the expected table *)




Lemma Qcpower_nonzero (c : Qc) (n : nat) : c <> 0%Qc -> (c ^ n)%Qc <> 0%Qc.
Proof.
  intros Hc. induction n as [|n IH]; simpl.
  - apply Q_apart_0_1.
  - intros Hmul. apply Qcmult_integral in Hmul. tauto.
Qed.




(* ================================================================== *)
(** ** Validation performed by [chi2_contingency] *)

Lemma np_any_true {A} (p : A -> bool) (a : ndarray A) :
  np_any (amap p a) = true <->
  exists idx, In idx (indices (shape a)) /\ p (item a idx) = true.
Proof.
  unfold np_any, ravel. simpl. rewrite existsb_exists. split.
  - intros (b & Hin & Hb). apply in_map_iff in Hin.
    destruct Hin as (idx & <- & Hidx). exists idx. split; assumption.
  - intros (idx & Hidx & Hp). exists true. split; [|reflexivity].
    apply in_map_iff. exists idx. split; assumption.
Qed.

Lemma np_any_false {A} (p : A -> bool) (a : ndarray A) :
  np_any (amap p a) = false <->
  forall idx, In idx (indices (shape a)) -> p (item a idx) = false.
Proof.
  split.
  - intros Hany idx Hidx. destruct (p (item a idx)) eqn:E; [|reflexivity].
    rewrite <- Hany. symmetry. apply np_any_true. exists idx. now split.
  - intros Hall. destruct (np_any (amap p a)) eqn:E; [|reflexivity].
    apply np_any_true in E. destruct E as (idx & Hidx & Hp).
    rewrite Hall in Hp by exact Hidx. discriminate.
Qed.

Lemma size_astype_float64 (observed : array_like) :
  size (astype_float64 observed) = length (coordinates observed).
Proof.
  rewrite astype_float64_values. unfold coordinates, size. simpl.
  now rewrite length_indices.
Qed.

(** C5.  A table with a negative entry is rejected with NegativeValue as
    the first thing [chi2_contingency] does: the outcome is the exception
    itself, no expected frequencies or statistic are computed and nothing
    is returned. *)
Theorem chi2_contingency_negative (observed : array_like)
    (correction : bool) (lambda_ : lambda_t) (idx : index) :
  In idx (coordinates observed) ->
  (cell observed idx < 0)%Qc ->
  chi2_contingency observed correction lambda_ = Raise NegativeValue.
Proof.
  intros Hin Hneg. unfold chi2_contingency.
  replace (np_any (amap (fun x => F64.ltb x F64.zero)
                     (astype_float64 observed))) with true; [reflexivity|].
  symmetry. apply np_any_true. exists idx.
  rewrite astype_float64_values. split; [exact Hin|].
  simpl. apply Qc_ltb_lt. exact Hneg.
Qed.

Lemma no_negative_cell (observed : array_like) :
  (forall idx, In idx (coordinates observed) -> (0 <= cell observed idx)%Qc) ->
  np_any (amap (fun x => F64.ltb x F64.zero) (astype_float64 observed))
  = false.
Proof.
  intros Hnonneg. apply np_any_false. intros idx Hin.
  rewrite astype_float64_values in *. simpl.
  apply Qc_ltb_ge. apply Hnonneg. exact Hin.
Qed.

(** What [chi2_contingency] does with a nonnegative, non-empty table once
    the expected frequencies are known. *)
Lemma chi2_contingency_valid (observed : array_like) (correction : bool)
    (lambda_ : lambda_t) (expected : ndarray float64) :
  (forall idx, In idx (coordinates observed) -> (0 <= cell observed idx)%Qc) ->
  coordinates observed <> [] ->
  expected_freq observed = Ok expected ->
  chi2_contingency observed correction lambda_
  = if np_any (amap (fun x => F64.eqb x F64.zero) expected) then
      match nonzero_coords (amap (fun x => F64.eqb x F64.zero) expected) with
      | zeropos :: _ => Raise (DegenerateExpectedCell zeropos)
      | [] => Raise IndexError
      end
    else
      let dof := degrees_of_freedom expected in
      if (dof =? 0)%Z then Return (F64.zero, F64.one, dof, expected)
      else
        observed' <~ (if (dof =? 1)%Z && correction
                      then lift (yates expected (astype_float64 observed))
                      else Return (astype_float64 observed)) ;;
        PowerDivergence observed' expected
          (Z.of_nat (size observed') - 1 - dof)%Z lambda_
          (fun r => Return (fst r, snd r, dof, expected)).
Proof.
  intros Hnonneg Hsize Hexp. unfold chi2_contingency.
  rewrite no_negative_cell by exact Hnonneg.
  rewrite size_astype_float64.
  destruct (coordinates observed) as [|c cs]; [contradiction|].
  simpl Nat.eqb. cbv iota. rewrite Hexp. reflexivity.
Qed.


(* ================================================================== *)
(** ** Degrees of freedom *)

Lemma expected_freq_rank_0 (observed : array_like) :
  ndim (table_values observed) = 0 ->
  expected_freq observed = Error ReduceEmpty.
Proof.
  intros Hn. unfold expected_freq.
  rewrite astype_float64_values, margins_ok.
  change (ndim (amap Fin (table_values observed)))
    with (ndim (table_values observed)).
  rewrite Hn. reflexivity.
Qed.

Lemma expected_freq_shape (observed : array_like)
    (expected : ndarray float64) :
  expected_freq observed = Ok expected ->
  shape expected = shape (table_values observed).
Proof.
  intros Hexp.
  destruct (ndim (table_values observed)) as [|n] eqn:En.
  - rewrite expected_freq_rank_0 in Hexp by exact En. discriminate.
  - destruct (@expected_freq_cells observed) as (e & Hok & Hshape & _).
    + rewrite En. lia.
    + congruence.
Qed.

Lemma run_chi2_contingency_inv
    (pd : ndarray float64 -> ndarray float64 -> Z -> lambda_t ->
          result (float64 * float64))
    (observed : array_like) (correction : bool) (lambda_ : lambda_t)
    (chi2 p : float64) (dof : Z) (expected : ndarray float64) :
  run pd (chi2_contingency observed correction lambda_)
  = Ok (chi2, p, dof, expected) ->
  expected_freq observed = Ok expected /\
  dof = degrees_of_freedom expected.
Proof.
  unfold chi2_contingency.
  destruct (np_any (amap (fun x => F64.ltb x F64.zero)
                      (astype_float64 observed))); [discriminate|].
  destruct (size (astype_float64 observed) =? 0); [discriminate|].
  destruct (expected_freq observed) as [e|err]; [|discriminate].
  simpl cbind.
  destruct (np_any (amap (fun x => F64.eqb x F64.zero) e)).
  { destruct (nonzero_coords _); discriminate. }
  destruct (degrees_of_freedom e =? 0)%Z.
  { simpl. intros H. inversion H. split; reflexivity. }
  destruct ((degrees_of_freedom e =? 1)%Z && correction).
  - destruct (yates e (astype_float64 observed)) as [o|err];
      [|discriminate].
    simpl. destruct (pd _ _ _ _); [|discriminate].
    simpl. intros H. inversion H. split; reflexivity.
  - simpl. destruct (pd _ _ _ _); [|discriminate].
    simpl. intros H. inversion H. split; reflexivity.
Qed.

Lemma degrees_of_freedom_2d {A} (a : ndarray A) (R C : nat) :
  shape a = [R; C] ->
  degrees_of_freedom a = ((Z.of_nat R - 1) * (Z.of_nat C - 1))%Z.
Proof.
  intros Hshape. unfold degrees_of_freedom, size, ndim.
  rewrite Hshape. simpl. rewrite Nat.mul_1_r. lia.
Qed.

(** C3.  For a table of shape R x C the degrees of freedom
    [size - sum(shape) + ndim - 1] are exactly (R-1)*(C-1), and this is the
    [dof] component of every result [chi2_contingency] returns for such a
    table. *)
Theorem chi2_contingency_dof_2d
    (pd : ndarray float64 -> ndarray float64 -> Z -> lambda_t ->
          result (float64 * float64))
    (observed : array_like) (correction : bool) (lambda_ : lambda_t)
    (R C : nat) :
  shape (table_values observed) = [R; C] ->
  degrees_of_freedom (astype_float64 observed)
  = ((Z.of_nat R - 1) * (Z.of_nat C - 1))%Z /\
  forall chi2 p dof expected,
    run pd (chi2_contingency observed correction lambda_)
    = Ok (chi2, p, dof, expected) ->
    dof = ((Z.of_nat R - 1) * (Z.of_nat C - 1))%Z.
Proof.
  intros Hshape. split.
  - apply degrees_of_freedom_2d.
    rewrite astype_float64_values. exact Hshape.
  - intros chi2 p dof expected Hrun.
    apply run_chi2_contingency_inv in Hrun. destruct Hrun as [Hexp ->].
    apply degrees_of_freedom_2d.
    rewrite (expected_freq_shape observed Hexp). exact Hshape.
Qed.

(* ================================================================== *)
(** ** Properties of [association] *)

Lemma chi2_contingency_empty (observed : array_like) (correction : bool)
    (lambda_ : lambda_t) :
  coordinates observed = [] ->
  chi2_contingency observed correction lambda_ = Raise EmptyInput.
Proof.
  intros Hempty. unfold chi2_contingency.
  replace (np_any (amap (fun x => F64.ltb x F64.zero)
                     (astype_float64 observed))) with false.
  - rewrite size_astype_float64, Hempty. reflexivity.
  - symmetry. apply np_any_false. intros idx Hin.
    rewrite astype_float64_values in Hin. unfold coordinates in Hempty.
    simpl in Hin. rewrite Hempty in Hin. destruct Hin.
Qed.

Lemma Qred_inject_Z (k : Z) : Qred (inject_Z k) = inject_Z k.
Proof. apply Qred_iff. simpl. apply Z.gcd_1_r. Qed.

Lemma Qc_of_Z_nonneg (k : Z) : (0 <= k)%Z -> (0 <= Qc_of_Z k)%Qc.
Proof.
  intros Hk. unfold Qcle.
  change (this (Qc_of_Z k)) with (Qred (inject_Z k)).
  rewrite Qred_inject_Z. unfold Qle. simpl. lia.
Qed.

Lemma Qc_of_Z_pos (k : Z) : (0 < k)%Z -> (0 < Qc_of_Z k)%Qc.
Proof.
  intros Hk. unfold Qclt.
  change (this (Qc_of_Z k)) with (Qred (inject_Z k)).
  rewrite Qred_inject_Z. unfold Qlt. simpl. lia.
Qed.

Lemma Qc_sqrt_floor_square (m : Z) :
  (0 <= m)%Z -> Qc_sqrt_floor (Qc_of_Z (m * m)) = Qc_of_Z m.
Proof.
  intros Hm. unfold Qc_sqrt_floor.
  change (this (Qc_of_Z (m * m))) with (Qred (inject_Z (m * m))).
  rewrite Qred_inject_Z. unfold Qc_of_Z. simpl Qnum. simpl Qden.
  rewrite Z.mul_1_r, Z.sqrt_square by exact Hm. reflexivity.
Qed.

Section AssociationSpec.

Variable sqrt_Qc : Qc -> Qc.

(** C10.  [association] checks the element type before the rank: a table
    of floats is rejected with WrongDtype whatever its rank, and the rank
    is examined (WrongRank) only for an integer table. *)
Theorem association_dtype_before_rank (method : string) (correction : bool)
    (lambda_ : lambda_t) :
  (forall a : ndarray Qc,
     association sqrt_Qc (FloatArray a) method correction lambda_
     = Raise WrongDtype) /\
  (forall arr : ndarray Z,
     ndim arr <> 2 ->
     association sqrt_Qc (IntArray arr) method correction lambda_
     = Raise WrongRank).
Proof.
  split.
  - intros a. reflexivity.
  - intros arr Hrank. unfold association.
    apply Nat.eqb_neq in Hrank. unfold ndim in Hrank.
    rewrite Hrank. reflexivity.
Qed.

(** [math.sqrt] is exact on the squares of integers. *)
Hypothesis sqrt_Qc_square :
  forall m : Z, (0 <= m)%Z -> sqrt_Qc (Qc_of_Z (m * m)) = Qc_of_Z m.

Lemma math_sqrt_square (m : Z) :
  (0 <= m)%Z ->
  math_sqrt sqrt_Qc (F64.of_Z (m * m)) = Ok (F64.of_Z m).
Proof.
  intros Hm. unfold math_sqrt, F64.of_Z.
  replace (Qc_ltb (Qc_of_Z (m * m)) 0) with false.
  - now rewrite sqrt_Qc_square.
  - symmetry. apply Qc_ltb_ge. apply Qc_of_Z_nonneg. nia.
Qed.

Lemma association_square (arr : ndarray Z) (n : nat) (correction : bool)
    (lambda_ : lambda_t) :
  shape arr = [n; n] ->
  association sqrt_Qc (IntArray arr) "cramer" correction lambda_
  = association sqrt_Qc (IntArray arr) "tschuprow" correction lambda_.
Proof.
  intros Hshape. destruct n as [|n].
  - unfold association. rewrite Hshape. simpl negb. cbv iota.
    rewrite chi2_contingency_empty; [reflexivity|].
    unfold coordinates. simpl. rewrite Hshape. reflexivity.
  - unfold association. rewrite Hshape. simpl negb. cbv iota.
    cbv zeta. simpl nth.
    rewrite Z.min_id.
    rewrite math_sqrt_square by lia.
    reflexivity.
Qed.

(** C8.  For a square 2-D integer table, whenever [association] returns a
    value with method "cramer" it returns the same value with method
    "tschuprow", and conversely (same correction flag and [lambda_], same
    external [power_divergence]). *)
Theorem association_cramer_tschuprow_square
    (pd : ndarray float64 -> ndarray float64 -> Z -> lambda_t ->
          result (float64 * float64))
    (arr : ndarray Z) (n : nat) (correction : bool) (lambda_ : lambda_t)
    (v : float64) :
  shape arr = [n; n] ->
  run pd (association sqrt_Qc (IntArray arr) "cramer" correction lambda_)
  = Ok v <->
  run pd (association sqrt_Qc (IntArray arr) "tschuprow" correction lambda_)
  = Ok v.
Proof.
  intros Hshape. rewrite (association_square arr correction lambda_ Hshape).
  reflexivity.
Qed.

End AssociationSpec.

(* ================================================================== *)
(** ** Tables of strictly positive counts *)

Ltac qc_to_q :=
  unfold Qclt, Qcle, Qcminus, Qcdiv, Qcplus, Qcmult, Qcopp, Qcinv, Q2Qc in *;
  cbn [this] in *; rewrite ?Qred_correct in *.

Lemma Qcplus_pos_nonneg (a b : Qc) : (0 < a -> 0 <= b -> 0 < a + b)%Qc.
Proof. intros Ha Hb. qc_to_q. lra. Qed.

Lemma Qcmult_pos (a b : Qc) : (0 < a -> 0 < b -> 0 < a * b)%Qc.
Proof. intros Ha Hb. qc_to_q. nra. Qed.

Lemma Qcdiv_pos (a b : Qc) : (0 < a -> 0 < b -> 0 < a / b)%Qc.
Proof.
  intros Ha Hb. qc_to_q.
  apply Qmult_lt_0_compat; [exact Ha|]. apply Qinv_lt_0_compat. exact Hb.
Qed.

Lemma Qc_pos_nonzero (a : Qc) : (0 < a)%Qc -> a <> 0%Qc.
Proof.
  intros Ha Heq. subst a. apply (Qclt_not_eq _ _ Ha). reflexivity.
Qed.

Lemma sum_list_nonneg {X} (f : X -> Qc) (l : list X) :
  (forall x, In x l -> (0 <= f x)%Qc) -> (0 <= sum_list (map f l))%Qc.
Proof.
  induction l as [|x xs IH]; intros Hall; simpl.
  - apply Qcle_refl.
  - fold (sum_list (map f xs)).
    assert (Hx : (0 <= f x)%Qc) by (apply Hall; left; reflexivity).
    assert (Hxs : (0 <= sum_list (map f xs))%Qc)
      by (apply IH; intros y Hy; apply Hall; right; exact Hy).
    qc_to_q. lra.
Qed.

Lemma sum_list_pos {X} (f : X -> Qc) (l : list X) (x : X) :
  In x l -> (forall y, In y l -> (0 < f y)%Qc) ->
  (0 < sum_list (map f l))%Qc.
Proof.
  intros Hin Hall. destruct l as [|y ys]; [destruct Hin|]. simpl.
  fold (sum_list (map f ys)). apply Qcplus_pos_nonneg.
  - apply Hall. left. reflexivity.
  - apply sum_list_nonneg. intros z Hz. apply Qclt_le_weak.
    apply Hall. right. exact Hz.
Qed.

Lemma Qc_prod_pos (l : list Qc) :
  (forall x, In x l -> (0 < x)%Qc) -> (0 < Qc_prod l)%Qc.
Proof.
  induction l as [|x xs IH]; intros Hall; simpl.
  - reflexivity.
  - fold (Qc_prod xs). apply Qcmult_pos.
    + apply Hall. left. reflexivity.
    + apply IH. intros y Hy. apply Hall. right. exact Hy.
Qed.

Lemma Qcpower_pos_strict (c : Qc) (n : nat) : (0 < c)%Qc -> (0 < c ^ n)%Qc.
Proof.
  intros Hc. induction n as [|n IH]; simpl.
  - reflexivity.
  - apply Qcmult_pos; assumption.
Qed.

Section PositiveTable.

Variable observed : array_like.

Hypothesis rank_pos : 1 <= ndim (table_values observed).

Hypothesis cells_pos :
  forall idx, In idx (coordinates observed) -> (0 < cell observed idx)%Qc.

Lemma total_pos (idx : index) :
  In idx (coordinates observed) -> (0 < asum (table_values observed))%Qc.
Proof.
  intros Hin. unfold asum, ravel.
  apply sum_list_pos with (x := idx); [exact Hin | exact cells_pos].
Qed.

Lemma sum_except_axis_pos (idx : index) (p : nat) :
  In idx (coordinates observed) ->
  (0 < sum_except_axis (table_values observed) p (nth p idx 0%nat))%Qc.
Proof.
  intros Hin. unfold sum_except_axis.
  apply sum_list_pos with (x := idx).
  - apply filter_In. split; [exact Hin | apply Nat.eqb_refl].
  - intros y Hy. apply filter_In in Hy. apply cells_pos. apply Hy.
Qed.

(** Every expected frequency of a positive table is a positive number. *)
Lemma expected_freq_pos :
  exists expected,
    expected_freq observed = Ok expected /\
    shape expected = shape (table_values observed) /\
    forall idx, In idx (coordinates observed) ->
      exists x, item expected idx = Fin x /\ (0 < x)%Qc.
Proof.
  destruct (expected_freq_cells observed rank_pos)
    as (e & Hok & Hshape & Hcell).
  exists e. split; [exact Hok|]. split; [exact Hshape|].
  intros idx Hin. rewrite (Hcell idx Hin).
  pose proof (total_pos idx Hin) as HT.
  rewrite div_Fin
    by (apply Qcpower_nonzero; apply Qc_pos_nonzero; exact HT).
  eexists. split; [reflexivity|].
  apply Qcdiv_pos.
  - unfold margin_product. apply Qc_prod_pos.
    intros x Hx. apply in_map_iff in Hx. destruct Hx as (p & <- & _).
    apply sum_except_axis_pos. exact Hin.
  - apply Qcpower_pos_strict. exact HT.
Qed.

(** A positive, non-empty table passes every check of
    [chi2_contingency]. *)
Lemma chi2_contingency_positive (correction : bool) (lambda_ : lambda_t) :
  coordinates observed <> [] ->
  exists expected,
    expected_freq observed = Ok expected /\
    shape expected = shape (table_values observed) /\
    chi2_contingency observed correction lambda_
    = let dof := degrees_of_freedom expected in
      if (dof =? 0)%Z then Return (F64.zero, F64.one, dof, expected)
      else
        observed' <~ (if (dof =? 1)%Z && correction
                      then lift (yates expected (astype_float64 observed))
                      else Return (astype_float64 observed)) ;;
        PowerDivergence observed' expected
          (Z.of_nat (size observed') - 1 - dof)%Z lambda_
          (fun r => Return (fst r, snd r, dof, expected)).
Proof.
  intros Hsize.
  destruct expected_freq_pos as (e & Hok & Hshape & Hpos).
  exists e. split; [exact Hok|]. split; [exact Hshape|].
  rewrite (@chi2_contingency_valid observed correction lambda_ e);
    [|intros idx Hin; apply Qclt_le_weak; apply cells_pos; exact Hin
     |exact Hsize|exact Hok].
  replace (np_any (amap (fun x => F64.eqb x F64.zero) e)) with false;
    [reflexivity|].
  symmetry. apply np_any_false. intros idx Hin.
  rewrite Hshape in Hin. destruct (Hpos idx Hin) as (x & -> & Hx).
  simpl. apply Qc_eqb_neq. apply Qc_pos_nonzero. exact Hx.
Qed.

End PositiveTable.

(* ================================================================== *)
(** ** One-dimensional tables *)

Lemma Qcdiv_1_r (x : Qc) : (x / 1)%Qc = x.
Proof.
  unfold Qcdiv. replace (/ 1)%Qc with 1%Qc.
  - apply Qcmult_1_r.
  - apply Qc_is_canon. reflexivity.
Qed.

Lemma indices_nonempty (s : list nat) : prod_list s <> 0 -> indices s <> [].
Proof.
  intros Hprod Hnil. apply Hprod.
  rewrite <- length_indices, Hnil. reflexivity.
Qed.

Lemma expected_freq_1d (observed : array_like) (n : nat) :
  shape (table_values observed) = [n] ->
  expected_freq observed
  = Ok (amap (fun x => F64.div x F64.one) (astype_float64 observed)).
Proof.
  intros Hshape. unfold expected_freq.
  rewrite astype_float64_values, margins_ok.
  unfold margin, ndim. simpl shape. rewrite Hshape. reflexivity.
Qed.

(** C1, as the code has it.  For a 1-D table with at least one cell, all
    of whose cells are strictly positive, [chi2_contingency] returns the
    statistic 0.0, the p-value 1.0, dof 0 and an expected table equal to
    the observed one; the outcome is a plain return, so [power_divergence]
    is not called. *)
Theorem chi2_contingency_1d (observed : array_like) (correction : bool)
    (lambda_ : lambda_t) (n : nat) :
  shape (table_values observed) = [n] ->
  1 <= n ->
  (forall idx, In idx (coordinates observed) -> (0 < cell observed idx)%Qc) ->
  exists expected,
    chi2_contingency observed correction lambda_
    = Return (F64.zero, F64.one, 0%Z, expected) /\
    shape expected = shape (astype_float64 observed) /\
    ravel expected = ravel (astype_float64 observed).
Proof.
  intros Hshape Hn Hpos.
  exists (amap (fun x => F64.div x F64.one) (astype_float64 observed)).
  split; [|split].
  - rewrite (@chi2_contingency_valid observed correction lambda_
               (amap (fun x => F64.div x F64.one) (astype_float64 observed))).
    + replace (np_any _) with false.
      * unfold degrees_of_freedom, size, ndim.
        rewrite astype_float64_values. simpl shape. rewrite Hshape.
        simpl prod_list. simpl sum_Z. simpl length.
        replace (Z.of_nat (n * 1) - (Z.of_nat n + 0) + Z.of_nat 1 - 1)%Z
          with 0%Z by lia.
        reflexivity.
      * symmetry. apply np_any_false. intros idx Hin.
        rewrite astype_float64_values in *. simpl in Hin.
        cbn [item amap]. unfold F64.one.
        rewrite div_Fin by apply Q_apart_0_1.
        rewrite Qcdiv_1_r. simpl. apply Qc_eqb_neq.
        apply Qc_pos_nonzero. apply Hpos. exact Hin.
    + intros idx Hin. apply Qclt_le_weak. apply Hpos. exact Hin.
    + unfold coordinates. rewrite Hshape. apply indices_nonempty.
      simpl. lia.
    + apply expected_freq_1d with (n := n). exact Hshape.
  - reflexivity.
  - unfold ravel. simpl shape. apply map_ext. intros idx.
    rewrite astype_float64_values. cbn [item amap]. unfold F64.one.
    rewrite div_Fin by apply Q_apart_0_1. now rewrite Qcdiv_1_r.
Qed.

(** A 1-D table with a zero cell is rejected: the claim that every 1-D
    table yields (0.0, 1.0, 0, observed) fails on [0, 5]. *)
Lemma chi2_contingency_1d_zero_cell :
  let observed := IntArray (array1 0%Z [0; 5]%Z) in
  ndim (table_values observed) = 1 /\
  chi2_contingency observed true LambdaNone
  = Raise (DegenerateExpectedCell [0]) /\
  ~ (exists expected,
       chi2_contingency observed true LambdaNone
       = Return (F64.zero, F64.one, 0%Z, expected)).
Proof.
  assert (Hraise : chi2_contingency (IntArray (array1 0%Z [0; 5]%Z)) true
                     LambdaNone = Raise (DegenerateExpectedCell [0]))
    by (vm_compute; reflexivity).
  split; [reflexivity|]. split; [exact Hraise|].
  intros (expected & Hret). rewrite Hraise in Hret. discriminate.
Qed.

(* ================================================================== *)
(** ** Tables with a single row or a single column *)

Lemma Qcdiv_0_l (t : Qc) : (0 / t)%Qc = 0%Qc.
Proof. unfold Qcdiv. apply Qcmult_0_l. Qed.

(** With zero degrees of freedom phi2 is 0.0 / total, and dividing it by
    zero gives NaN whatever the total is. *)
Lemma phi2_over_zero (total : Z) :
  F64.div (F64.div F64.zero (F64.of_Z total)) F64.zero = NaN.
Proof.
  unfold F64.zero, F64.of_Z. unfold F64.div at 2.
  destruct (Qc_eqb (Qc_of_Z total) 0).
  - reflexivity.
  - rewrite Qcdiv_0_l. reflexivity.
Qed.

Section SingleRowOrColumn.

Variable sqrt_Qc : Qc -> Qc.

Hypothesis sqrt_Qc_zero : sqrt_Qc 0%Qc = 0%Qc.

Variable arr : ndarray Z.
Variable n : nat.

Hypothesis one_row_or_column : shape arr = [1; n] \/ shape arr = [n; 1].
Hypothesis not_empty : 1 <= n.
Hypothesis counts_pos :
  forall idx, In idx (indices (shape arr)) -> (0 < item arr idx)%Z.

Lemma single_line_chi2 (correction : bool) (lambda_ : lambda_t) :
  exists expected,
    chi2_contingency (IntArray arr) correction lambda_
    = Return (F64.zero, F64.one, 0%Z, expected).
Proof.
  destruct (@chi2_contingency_positive (IntArray arr)) with
    (correction := correction) (lambda_ := lambda_)
    as (e & _ & Hshape & Heq).
  - unfold ndim. simpl. destruct one_row_or_column as [-> | ->]; simpl; lia.
  - intros idx Hin. unfold cell. simpl. apply Qc_of_Z_pos.
    apply counts_pos. exact Hin.
  - unfold coordinates. simpl. apply indices_nonempty.
    destruct one_row_or_column as [-> | ->]; simpl; lia.
  - exists e. rewrite Heq. simpl in Hshape.
    assert (Hdof : degrees_of_freedom e = 0%Z).
    { destruct one_row_or_column as [H | H]; rewrite H in Hshape;
        rewrite (degrees_of_freedom_2d _ Hshape); lia. }
    cbv zeta. rewrite Hdof. reflexivity.
Qed.

(** C9, as the code has it.  For a 2-D integer table with exactly one row
    or one column and strictly positive counts, [association] with method
    "cramer" or "tschuprow" divides phi2 by zero; NumPy float division
    does not raise, the quotient is NaN, and NaN is what [association]
    returns. *)
Theorem association_single_row_or_column (method : string)
    (correction : bool) (lambda_ : lambda_t) :
  method = "cramer"%string \/ method = "tschuprow"%string ->
  association sqrt_Qc (IntArray arr) method correction lambda_ = Return NaN.
Proof.
  intros Hmethod.
  destruct (single_line_chi2 correction lambda_) as (e & Hchi2).
  assert (Hrank : length (shape arr) = 2)
    by (destruct one_row_or_column as [-> | ->]; reflexivity).
  assert (Hmin : Z.min (Z.of_nat (nth 1 (shape arr) 0) - 1)
                       (Z.of_nat (nth 0 (shape arr) 0) - 1) = 0%Z)
    by (destruct one_row_or_column as [-> | ->]; simpl nth; lia).
  assert (Hmul : Z.mul (Z.of_nat (nth 0 (shape arr) 0) - 1)
                       (Z.of_nat (nth 1 (shape arr) 0) - 1) = 0%Z)
    by (destruct one_row_or_column as [-> | ->]; simpl nth; lia).
  unfold association. rewrite Hrank, Hchi2. simpl negb. cbv iota.
  cbn [cbind]. cbv zeta. cbn [fst].
  rewrite Hmin, Hmul.
  destruct Hmethod as [-> | ->].
  - simpl String.eqb. cbv iota. cbn [cbind].
    change (F64.of_Z 0) with F64.zero. rewrite phi2_over_zero.
    reflexivity.
  - simpl String.eqb. cbv iota.
    change (math_sqrt sqrt_Qc (F64.of_Z 0)) with (Ok (Fin (sqrt_Qc 0%Qc))).
    rewrite sqrt_Qc_zero. cbn [cbind lift].
    change (Fin 0%Qc) with F64.zero. rewrite phi2_over_zero.
    reflexivity.
Qed.

End SingleRowOrColumn.

(** On the single-row table [[3, 5]] no exception is raised: the division
    by zero yields NaN and [association] returns it. *)
Lemma association_single_row_returns_nan :
  let observed := Zs [[3; 5]]%Z in
  association Qc_sqrt_floor observed "cramer" false LambdaNone = Return NaN /\
  forall e : exn,
    association Qc_sqrt_floor observed "cramer" false LambdaNone <> Raise e.
Proof.
  assert (Hret : association Qc_sqrt_floor (Zs [[3; 5]]%Z) "cramer" false
                   LambdaNone = Return NaN)
    by (vm_compute; reflexivity).
  split; [exact Hret|].
  intros e Hraise. rewrite Hret in Hraise. discriminate.
Qed.

(* ================================================================== *)
(** ** Yates' correction *)

Lemma broadcast_index_in_range (s : list nat) (idx : index) :
  In idx (indices s) -> broadcast_index s idx = idx.
Proof.
  intros Hin.
  rewrite broadcast_index_same_rank by (apply in_indices_length; exact Hin).
  apply clip_index_in_range. exact Hin.
Qed.

Lemma broadcast2_same_shape {A B C} (f : A -> B -> C)
    (a : ndarray A) (b : ndarray B) :
  shape a = shape b ->
  broadcast2 f a b
  = Ok (mk_ndarray (shape a)
          (fun idx => f (item a (broadcast_index (shape a) idx))
                        (item b (broadcast_index (shape b) idx)))).
Proof.
  intros Hshape. unfold broadcast2. rewrite <- Hshape.
  rewrite broadcast_shapes_same_rank by reflexivity.
  rewrite broadcast_aligned_same. reflexivity.
Qed.

(** [yates] applies [yates_cell] to every cell. *)
Lemma yates_cells (expected observed : ndarray float64) :
  shape expected = shape observed ->
  exists corrected,
    yates expected observed = Ok corrected /\
    shape corrected = shape observed /\
    forall idx, In idx (indices (shape observed)) ->
      item corrected idx
      = yates_cell (item expected idx) (item observed idx).
Proof.
  intros Hshape. unfold yates.
  rewrite (broadcast2_same_shape F64.sub expected observed Hshape).
  cbn [rbind].
  rewrite broadcast2_same_shape by reflexivity.
  cbn [rbind].
  rewrite broadcast2_same_shape by (cbn [shape amap]; congruence).
  eexists. split; [reflexivity|]. split; [reflexivity|].
  intros idx Hin. cbn [item shape amap].
  rewrite <- Hshape in Hin |- *.
  rewrite !(broadcast_index_in_range _ _ Hin). reflexivity.
Qed.


(* ================================================================== *)
(** ** The theorems at concrete tables *)

Ltac each_coordinate Hin tac :=
  simpl in Hin;
  repeat (destruct Hin as [<- | Hin]; [tac|]);
  destruct Hin.

Lemma chi2_contingency_1d_witness :
  let observed := IntArray (array1 0%Z [3; 5]%Z) in
  exists expected,
    chi2_contingency observed true LambdaNone
    = Return (F64.zero, F64.one, 0%Z, expected) /\
    shape expected = shape (astype_float64 observed) /\
    ravel expected = ravel (astype_float64 observed).
Proof.
  apply (@chi2_contingency_1d (IntArray (array1 0%Z [3; 5]%Z)) true
           LambdaNone 2).
  - reflexivity.
  - lia.
  - intros idx Hin. each_coordinate Hin ltac:(vm_compute; reflexivity).
Defined.

Lemma chi2_contingency_dof_2d_witness :
  let observed := Zs [[10; 10; 20]; [20; 20; 20]]%Z in
  shape (table_values observed) = [2; 3] /\
  degrees_of_freedom (astype_float64 observed) = 2%Z /\
  match run constant_divergence (chi2_contingency observed true LambdaNone)
  with
  | Ok (_, _, dof, _) => dof = 2%Z
  | Error _ => False
  end.
Proof.
  cbv zeta. split; [reflexivity|].
  destruct (@chi2_contingency_dof_2d constant_divergence
              (Zs [[10; 10; 20]; [20; 20; 20]]%Z) true LambdaNone 2 3
              eq_refl) as [Hformula Hrun].
  split; [exact Hformula|].
  assert (Hok : is_ok (run constant_divergence
                         (chi2_contingency
                            (Zs [[10; 10; 20]; [20; 20; 20]]%Z) true
                            LambdaNone)) = true)
    by (vm_compute; reflexivity).
  destruct (run constant_divergence
              (chi2_contingency (Zs [[10; 10; 20]; [20; 20; 20]]%Z) true
                 LambdaNone)) as [[[[chi2 p] dof] e] | err] eqn:Hres.
  - apply (Hrun chi2 p dof e). reflexivity.
  - discriminate Hok.
Defined.


Lemma chi2_contingency_negative_witness :
  let observed := Zs [[-1; 2]; [3; 4]]%Z in
  In [0; 0] (coordinates observed) /\
  (cell observed [0%nat; 0%nat] < 0)%Qc /\
  chi2_contingency observed true LambdaNone = Raise NegativeValue.
Proof.
  cbv zeta.
  assert (Hin : In [0; 0] (coordinates (Zs [[-1; 2]; [3; 4]]%Z)))
    by (simpl; tauto).
  assert (Hneg : (cell (Zs [[-1; 2]; [3; 4]]%Z) [0%nat; 0%nat] < 0)%Qc)
    by (vm_compute; reflexivity).
  split; [exact Hin|]. split; [exact Hneg|].
  exact (chi2_contingency_negative _ true LambdaNone _ Hin Hneg).
Defined.



Lemma association_cramer_tschuprow_square_witness :
  let arr := array2 0%Z [[10; 20]; [30; 40]]%Z in
  shape arr = [2; 2] /\
  (run constant_divergence
     (association Qc_sqrt_floor (IntArray arr) "cramer" false LambdaNone)
   = Ok F64.one <->
   run constant_divergence
     (association Qc_sqrt_floor (IntArray arr) "tschuprow" false LambdaNone)
   = Ok F64.one).
Proof.
  cbv zeta. split; [reflexivity|].
  apply (@association_cramer_tschuprow_square Qc_sqrt_floor
           Qc_sqrt_floor_square constant_divergence
           (array2 0%Z [[10; 20]; [30; 40]]%Z) 2).
  reflexivity.
Defined.

Lemma association_single_row_or_column_witness :
  association Qc_sqrt_floor (Zs [[3; 5]]%Z) "tschuprow" false LambdaNone
  = Return NaN.
Proof.
  apply (@association_single_row_or_column Qc_sqrt_floor) with (n := 2).
  - apply Qc_is_canon. reflexivity.
  - left. reflexivity.
  - lia.
  - intros idx Hin. each_coordinate Hin ltac:(vm_compute; reflexivity).
  - right. reflexivity.
Defined.

Lemma association_dtype_before_rank_witness :
  association Qc_sqrt_floor (FloatArray (array1 0%Qc [Qc_half; Qc_half]))
    "cramer" false LambdaNone = Raise WrongDtype /\
  ndim (array1 0%Z [1; 2; 3]%Z) <> 2 /\
  association Qc_sqrt_floor (IntArray (array1 0%Z [1; 2; 3]%Z))
    "cramer" false LambdaNone = Raise WrongRank.
Proof.
  destruct (association_dtype_before_rank Qc_sqrt_floor "cramer" false
              LambdaNone) as [Hdtype Hrank].
  assert (Hne : ndim (array1 0%Z [1; 2; 3]%Z) <> 2)
    by (vm_compute; lia).
  split; [apply Hdtype|]. split; [exact Hne|].
  apply Hrank. exact Hne.
Defined.

(** The example of the docstring: the expected frequencies of
    [[10, 10, 20], [20, 20, 20]] are [[12, 12, 16], [18, 18, 24]], with two
    degrees of freedom. *)
Lemma expected_freq_documented_example :
  match expected_freq (Zs [[10; 10; 20]; [20; 20; 20]]%Z) with
  | Ok expected =>
      shape expected = [2; 3] /\
      map view (ravel expected)
      = [VFin 12; VFin 12; VFin 16; VFin 18; VFin 18; VFin 24] /\
      degrees_of_freedom expected = 2%Z
  | Error _ => False
  end.
Proof. vm_compute. repeat split. Qed.

(* ================================================================== *)
(** ** Further properties of [expected_freq] *)

(** X2.  A 0-d array has no marginal sums, so [reduce] is applied to an
    empty list: [expected_freq] raises the TypeError of [reduce], and so
    does [chi2_contingency] when the single value is not negative. *)
Theorem expected_freq_scalar_input (observed : array_like)
    (correction : bool) (lambda_ : lambda_t) :
  ndim (table_values observed) = 0 ->
  expected_freq observed = Error ReduceEmpty /\
  ((0 <= cell observed [])%Qc ->
   chi2_contingency observed correction lambda_ = Raise ReduceEmpty).
Proof.
  intros Hrank. split; [apply expected_freq_rank_0; exact Hrank|].
  intros Hnonneg.
  assert (Hcoords : coordinates observed = [[]]).
  { unfold coordinates. unfold ndim in Hrank.
    destruct (shape (table_values observed)); [reflexivity|discriminate]. }
  unfold chi2_contingency.
  rewrite no_negative_cell.
  - rewrite size_astype_float64, Hcoords.
    rewrite expected_freq_rank_0 by exact Hrank. reflexivity.
  - intros idx Hin. rewrite Hcoords in Hin.
    destruct Hin as [<-|[]]. exact Hnonneg.
Qed.

Lemma expected_freq_scalar_input_witness :
  let observed := IntArray (mk_ndarray [] (fun _ => 5%Z)) in
  expected_freq observed = Error ReduceEmpty /\
  chi2_contingency observed true LambdaNone = Raise ReduceEmpty.
Proof.
  cbv zeta.
  destruct (@expected_freq_scalar_input
              (IntArray (mk_ndarray [] (fun _ => 5%Z))) true LambdaNone
              eq_refl) as [Hfreq Hchi2].
  split; [exact Hfreq|]. apply Hchi2. vm_compute. discriminate.
Defined.

(** X3.  For a 1-D array [expected_freq] returns the array itself (as
    floats), whatever its cells are: the single marginal is the array and
    the divisor is [total ** 0 = 1.0], also when the total is zero. *)
Theorem expected_freq_1d_identity (observed : array_like) (n : nat) :
  shape (table_values observed) = [n] ->
  exists expected,
    expected_freq observed = Ok expected /\
    shape expected = [n] /\
    ravel expected = ravel (astype_float64 observed).
Proof.
  intros Hshape.
  exists (amap (fun x => F64.div x F64.one) (astype_float64 observed)).
  split; [apply expected_freq_1d with (n := n); exact Hshape|]. split.
  - rewrite astype_float64_values. exact Hshape.
  - unfold ravel. simpl shape. apply map_ext. intros idx.
    rewrite astype_float64_values. cbn [item amap]. unfold F64.one.
    rewrite div_Fin by apply Q_apart_0_1. now rewrite Qcdiv_1_r.
Qed.

Lemma expected_freq_1d_identity_witness :
  let observed := IntArray (array1 0%Z [0; -3; 3]%Z) in
  exists expected,
    expected_freq observed = Ok expected /\
    shape expected = [3] /\
    ravel expected = ravel (astype_float64 observed).
Proof.
  apply (@expected_freq_1d_identity (IntArray (array1 0%Z [0; -3; 3]%Z)) 3).
  reflexivity.
Defined.

(* ================================================================== *)
(** ** Further properties of [chi2_contingency] *)

(** X4.  A table without cells (some axis has length 0) is rejected with
    the error "No data; `observed` has size 0", before any expected
    frequency is computed. *)
Theorem chi2_contingency_empty_table (observed : array_like)
    (correction : bool) (lambda_ : lambda_t) :
  size (astype_float64 observed) = 0 ->
  chi2_contingency observed correction lambda_ = Raise EmptyInput.
Proof.
  intros Hsize. apply chi2_contingency_empty.
  rewrite size_astype_float64 in Hsize.
  destruct (coordinates observed); [reflexivity|discriminate].
Qed.

Lemma chi2_contingency_empty_table_witness :
  chi2_contingency (IntArray (mk_ndarray [0; 8] (fun _ => 0%Z))) true
    LambdaNone = Raise EmptyInput.
Proof.
  apply (@chi2_contingency_empty_table
           (IntArray (mk_ndarray [0; 8] (fun _ => 0%Z))) true LambdaNone).
  reflexivity.
Defined.





Lemma prod_list_nonzero_cons (d : nat) (s : list nat) :
  prod_list (d :: s) <> 0 -> 1 <= d /\ prod_list s <> 0.
Proof. simpl. nia. Qed.

Lemma prod_list_one (s : list nat) :
  prod_list s <> 0 -> (prod_list s = 1 <-> nontrivial_axes s = 0).
Proof.
  induction s as [|d s IH]; intros Hprod.
  - split; reflexivity.
  - apply prod_list_nonzero_cons in Hprod as [Hd Hs].
    specialize (IH Hs). unfold nontrivial_axes in *.
    change (prod_list (d :: s)) with (d * prod_list s). simpl filter.
    destruct (Nat.ltb_spec 1 d) as [Hgt|Hle]; simpl length.
    + split; [nia|discriminate].
    + replace d with 1 by lia. destruct IH as [IH1 IH2].
      split; intros H; [apply IH1; lia | apply IH2 in H; lia].
Qed.

Lemma degrees_of_freedom_cons {A} (d : nat) (s : list nat)
    (f g : index -> A) :
  degrees_of_freedom (mk_ndarray (d :: s) f)
  = ((Z.of_nat d - 1) * (Z.of_nat (prod_list s) - 1)
     + degrees_of_freedom (mk_ndarray s g))%Z.
Proof.
  unfold degrees_of_freedom, size, ndim. simpl shape.
  simpl prod_list. simpl map. simpl sum_Z. simpl length.
  rewrite Nat2Z.inj_mul, Nat2Z.inj_succ. ring.
Qed.

Lemma degrees_of_freedom_shape (s : list nat) :
  forall {A} (f : index -> A),
    prod_list s <> 0 ->
    (0 <= degrees_of_freedom (mk_ndarray s f))%Z /\
    (degrees_of_freedom (mk_ndarray s f) = 0%Z <-> nontrivial_axes s <= 1).
Proof.
  induction s as [|d s IH]; intros A f Hprod.
  - unfold degrees_of_freedom, size, ndim, nontrivial_axes. simpl.
    split; [lia|]. split; intros; lia.
  - apply prod_list_nonzero_cons in Hprod as [Hd Hs].
    rewrite (degrees_of_freedom_cons d s f f).
    destruct (IH A f Hs) as [Hnonneg Hzero].
    pose proof (prod_list_one s Hs) as Hone.
    split; [nia|].
    unfold nontrivial_axes in *. simpl filter.
    destruct (Nat.ltb_spec 1 d) as [Hgt|Hle]; simpl length.
    + split.
      * intros Hdof.
        assert (Hp : prod_list s = 1) by nia.
        apply Hone in Hp. lia.
      * intros Hcount.
        assert (Hc : length (filter (fun d0 => 1 <? d0) s) = 0) by lia.
        apply Hone in Hc. rewrite Hc.
        assert (Hd0 : degrees_of_freedom (mk_ndarray s f) = 0%Z)
          by (apply Hzero; lia).
        rewrite Hd0. simpl. lia.
    + replace d with 1 by lia. simpl Z.of_nat.
      replace ((1 - 1) * (Z.of_nat (prod_list s) - 1)
               + degrees_of_freedom (mk_ndarray s f))%Z
        with (degrees_of_freedom (mk_ndarray s f)) by lia.
      exact Hzero.
Qed.

(** X7.  For an array with at least one cell the degrees of freedom
    [size - sum(shape) + ndim - 1] are never negative, and they are zero
    exactly when at most one axis has more than one category (the
    degenerate case of lines 281-286). *)
Theorem degrees_of_freedom_degenerate {A} (a : ndarray A) :
  size a <> 0 ->
  (0 <= degrees_of_freedom a)%Z /\
  (degrees_of_freedom a = 0%Z <-> nontrivial_axes (shape a) <= 1).
Proof.
  destruct a as [s f]. unfold size. simpl shape.
  apply degrees_of_freedom_shape.
Qed.

Lemma degrees_of_freedom_degenerate_witness :
  let a := mk_ndarray [1; 4; 1] (fun _ : index => 0%Z) in
  size a <> 0 /\
  (0 <= degrees_of_freedom a)%Z /\
  degrees_of_freedom a = 0%Z.
Proof.
  cbv zeta.
  assert (Hsize : size (mk_ndarray [1; 4; 1] (fun _ : index => 0%Z)) <> 0)
    by (vm_compute; lia).
  destruct (degrees_of_freedom_degenerate
              (mk_ndarray [1; 4; 1] (fun _ : index => 0%Z)) Hsize)
    as [Hnonneg Hzero].
  split; [exact Hsize|]. split; [exact Hnonneg|].
  apply Hzero. vm_compute. lia.
Defined.

(** X8.  The correction flag matters only when dof is 1: for a table whose
    degrees of freedom differ from 1, [chi2_contingency] with
    [correction=True] is the same computation as with
    [correction=False]. *)
Theorem chi2_contingency_correction_irrelevant (observed : array_like)
    (lambda_ : lambda_t) :
  degrees_of_freedom (astype_float64 observed) <> 1%Z ->
  chi2_contingency observed true lambda_
  = chi2_contingency observed false lambda_.
Proof.
  intros Hdof. unfold chi2_contingency.
  destruct (np_any (amap (fun x => F64.ltb x F64.zero)
                      (astype_float64 observed))); [reflexivity|].
  destruct (size (astype_float64 observed) =? 0); [reflexivity|].
  destruct (expected_freq observed) as [e|err] eqn:Hexp; [|reflexivity].
  cbn [lift cbind].
  assert (Hsame : degrees_of_freedom e
                  = degrees_of_freedom (astype_float64 observed)).
  { unfold degrees_of_freedom, size, ndim.
    rewrite (expected_freq_shape observed Hexp), astype_float64_values.
    reflexivity. }
  rewrite Hsame. apply Z.eqb_neq in Hdof. rewrite Hdof. reflexivity.
Qed.

Lemma chi2_contingency_correction_irrelevant_witness :
  chi2_contingency (Zs [[10; 10; 20]; [20; 20; 20]]%Z) true LambdaNone
  = chi2_contingency (Zs [[10; 10; 20]; [20; 20; 20]]%Z) false LambdaNone.
Proof.
  apply chi2_contingency_correction_irrelevant.
  vm_compute. discriminate.
Defined.

(* ================================================================== *)
(** ** Tables whose total count is zero *)

Lemma sum_list_all_zero {X} (f : X -> Qc) (l : list X) :
  (forall x, In x l -> f x = 0%Qc) -> sum_list (map f l) = 0%Qc.
Proof.
  intros Hzero.
  transitivity (sum_list (map (fun _ : X => 0%Qc) l)).
  - apply sum_list_ext. exact Hzero.
  - exact (@sum_list_map_zero Qc Numeric_Qc NumericLaws_Qc X l).
Qed.

(** X9.  For a non-empty table of rank at least two whose cells are all
    zero, every expected frequency is 0.0 / 0.0 = NaN.  NaN is not equal
    to zero, so the check of lines 271-276 does not reject the table:
    [chi2_contingency] raises nothing and goes on with NaN expected
    frequencies. *)
Theorem chi2_contingency_all_zero (observed : array_like)
    (correction : bool) (lambda_ : lambda_t) :
  2 <= ndim (table_values observed) ->
  coordinates observed <> [] ->
  (forall idx, In idx (coordinates observed) -> cell observed idx = 0%Qc) ->
  exists expected,
    expected_freq observed = Ok expected /\
    (forall idx, In idx (coordinates observed) -> item expected idx = NaN) /\
    forall e : exn, chi2_contingency observed correction lambda_ <> Raise e.
Proof.
  intros Hrank Hsize Hzero.
  assert (Hrank1 : 1 <= ndim (table_values observed)) by lia.
  destruct (expected_freq_cells observed Hrank1)
    as (e & Hok & Hshape & Hcell).
  assert (Hnan : forall idx, In idx (coordinates observed) ->
                             item e idx = NaN).
  { intros idx Hin. rewrite (Hcell idx Hin).
    assert (Htotal : asum (table_values observed) = 0%Qc)
      by (apply sum_list_all_zero; exact Hzero).
    rewrite Htotal, Qcpower_0 by lia.
    assert (Hprod : margin_product (table_values observed)
                      (ndim (table_values observed)) idx = 0%Qc).
    { unfold margin_product.
      destruct (ndim (table_values observed)) as [|n]; [lia|].
      rewrite <- cons_seq. simpl map. simpl Qc_prod.
      replace (sum_except_axis (table_values observed) 0 (nth 0 idx 0))
        with 0%Qc; [apply Qcmult_0_l|].
      symmetry. apply sum_list_all_zero.
      intros jdx Hj. apply filter_In in Hj. apply Hzero. apply Hj. }
    rewrite Hprod. reflexivity. }
  exists e. split; [exact Hok|]. split; [exact Hnan|].
  intros err.
  rewrite (@chi2_contingency_valid observed correction lambda_ e);
    [|intros idx Hin; rewrite (Hzero idx Hin); apply Qcle_refl
     |exact Hsize|exact Hok].
  replace (np_any (amap (fun x => F64.eqb x F64.zero) e)) with false.
  - cbv zeta. destruct (degrees_of_freedom e =? 0)%Z; [discriminate|].
    destruct ((degrees_of_freedom e =? 1)%Z && correction).
    + destruct (@yates_cells e (astype_float64 observed))
        as (o & Hy & _).
      { rewrite astype_float64_values. exact Hshape. }
      rewrite Hy. cbn [lift cbind]. discriminate.
    + cbn [cbind]. discriminate.
  - symmetry. apply np_any_false. intros idx Hin.
    rewrite Hshape in Hin. rewrite (Hnan idx Hin). reflexivity.
Qed.

Lemma chi2_contingency_all_zero_witness :
  let observed := Zs [[0; 0]; [0; 0]]%Z in
  exists expected,
    expected_freq observed = Ok expected /\
    item expected [1; 0] = NaN /\
    chi2_contingency observed true LambdaNone
    <> Raise (DegenerateExpectedCell [0; 0]).
Proof.
  cbv zeta.
  destruct (@chi2_contingency_all_zero (Zs [[0; 0]; [0; 0]]%Z) true
              LambdaNone) as (e & Hok & Hnan & Hraise).
  - vm_compute. lia.
  - discriminate.
  - intros idx Hin.
    each_coordinate Hin ltac:(apply Qc_is_canon; reflexivity).
  - exists e. split; [exact Hok|]. split; [|apply Hraise].
    apply Hnan. simpl. tauto.
Defined.

(* ================================================================== *)
(** ** Further properties of [association] *)

Lemma run_cbind {A B}
    (pd : ndarray float64 -> ndarray float64 -> Z -> lambda_t ->
          result (float64 * float64))
    (c : comp A) (f : A -> comp B) :
  run pd (cbind c f)
  = match run pd c with
    | Ok a => run pd (f a)
    | Error e => Error e
    end.
Proof.
  induction c as [a | e | o e d l k IH]; simpl.
  - reflexivity.
  - reflexivity.
  - destruct (pd o e d l) as [r|err]; [apply IH | reflexivity].
Qed.

Lemma sum_list_Z_pos {X} (f : X -> Z) (l : list X) :
  l <> [] -> (forall x, In x l -> (0 < f x)%Z) ->
  (0 < sum_list (map f l))%Z.
Proof.
  intros Hne Hpos. destruct l as [|x xs]; [contradiction|]. clear Hne.
  revert x Hpos. induction xs as [|y ys IH]; intros x Hpos; simpl.
  - specialize (Hpos x (or_introl eq_refl)). lia.
  - specialize (IH y (fun z Hz => Hpos z (or_intror Hz))).
    specialize (Hpos x (or_introl eq_refl)). simpl in IH. lia.
Qed.

Lemma Qc_of_Z_nonzero (z : Z) : z <> 0%Z -> Qc_of_Z z <> 0%Qc.
Proof.
  intros Hz Heq. apply Hz.
  unfold Qc_of_Z in Heq. apply Q2Qc_eq_iff in Heq.
  unfold Qeq in Heq. simpl in Heq. lia.
Qed.

Lemma Qcdiv_nonneg (a b : Qc) : (0 <= a -> 0 < b -> 0 <= a / b)%Qc.
Proof.
  intros Ha Hb. qc_to_q.
  apply Qmult_le_0_compat; [exact Ha|].
  apply Qinv_le_0_compat. lra.
Qed.

Lemma Qcplus_one_pos (a : Qc) : (0 <= a -> 0 < 1 + a)%Qc.
Proof. intros Ha. qc_to_q. lra. Qed.

Section AssociationOutcomes.

Variable sqrt_Qc : Qc -> Qc.

Variable pd : ndarray float64 -> ndarray float64 -> Z -> lambda_t ->
              result (float64 * float64).

(** X12.  The method name is examined last.  For a 2-D integer table and
    a method other than "cramer", "tschuprow" and "pearson",
    [association] first runs the whole chi-square test, the call of
    [power_divergence] included: an error of the test is the error
    reported, and UnknownMethod is raised only when the test succeeds. *)
Theorem association_unknown_method (arr : ndarray Z) (method : string)
    (correction : bool) (lambda_ : lambda_t) :
  ndim arr = 2 ->
  method <> "cramer"%string ->
  method <> "tschuprow"%string ->
  method <> "pearson"%string ->
  run pd (association sqrt_Qc (IntArray arr) method correction lambda_)
  = match run pd (chi2_contingency (IntArray arr) correction lambda_) with
    | Ok _ => Error UnknownMethod
    | Error e => Error e
    end.
Proof.
  intros Hrank Hc Ht Hp. unfold association.
  unfold ndim in Hrank. rewrite Hrank. simpl negb. cbv iota.
  apply String.eqb_neq in Hc, Ht, Hp. rewrite Hc, Ht, Hp.
  rewrite run_cbind.
  destruct (run pd (chi2_contingency (IntArray arr) correction lambda_));
    reflexivity.
Qed.

(** [math.sqrt] of a positive number is positive. *)
Hypothesis sqrt_Qc_pos :
  forall x : Qc, (0 < x)%Qc -> (0 < sqrt_Qc x)%Qc.

Variable arr : ndarray Z.
Variable R C : nat.
Hypothesis shape_arr : shape arr = [R; C].
Hypothesis two_rows : 2 <= R.
Hypothesis two_columns : 2 <= C.
Hypothesis counts_pos :
  forall idx, In idx (indices (shape arr)) -> (0 < item arr idx)%Z.

(** The counts add up to a number that int64 holds, so that [arr.sum()]
    does not wrap around. *)
Hypothesis total_fits : (asum arr < 2 ^ 63)%Z.

Variable correction : bool.
Variable lambda_ : lambda_t.

(** [power_divergence] answers the call that the chi-square test makes
    for this table with a finite statistic that is not negative. *)
Hypothesis statistic_nonneg :
  forall f_obs f_exp ddof lam k,
    chi2_contingency (IntArray arr) correction lambda_
    = PowerDivergence f_obs f_exp ddof lam k ->
    exists c p, pd f_obs f_exp ddof lam = Ok (Fin c, p) /\ (0 <= c)%Qc.

Lemma table_not_empty : indices (shape arr) <> [].
Proof.
  apply indices_nonempty. rewrite shape_arr. simpl. nia.
Qed.

Lemma total_in_range : int64_sum arr = asum arr /\ (0 < asum arr)%Z.
Proof.
  assert (Hpos : (0 < asum arr)%Z).
  { unfold asum, ravel.
    apply sum_list_Z_pos; [exact table_not_empty | exact counts_pos]. }
  split; [|exact Hpos].
  unfold int64_sum, wrap_int64. rewrite Z.mod_small by lia. lia.
Qed.

Lemma run_chi2_two_by_two :
  exists c p dof expected,
    run pd (chi2_contingency (IntArray arr) correction lambda_)
    = Ok (Fin c, p, dof, expected) /\ (0 <= c)%Qc.
Proof.
  pose proof statistic_nonneg as Hpd. revert Hpd.
  destruct (@chi2_contingency_positive (IntArray arr)) with
    (correction := correction) (lambda_ := lambda_)
    as (e & _ & Hshape & Heq).
  - unfold ndim. simpl. rewrite shape_arr. simpl. lia.
  - intros idx Hin. unfold cell. simpl. apply Qc_of_Z_pos.
    apply counts_pos. exact Hin.
  - exact table_not_empty.
  - rewrite Heq. cbv zeta. simpl in Hshape. rewrite shape_arr in Hshape.
    rewrite (degrees_of_freedom_2d _ Hshape).
    destruct (Z.eqb_spec ((Z.of_nat R - 1) * (Z.of_nat C - 1)) 0)
      as [Hzero|_]; [nia|].
    assert (Hobs : exists o,
               (if (((Z.of_nat R - 1) * (Z.of_nat C - 1) =? 1)%Z
                    && correction)%bool
                then lift (yates e (astype_float64 (IntArray arr)))
                else Return (astype_float64 (IntArray arr)))
               = Return o).
    { destruct (((Z.of_nat R - 1) * (Z.of_nat C - 1) =? 1)%Z && correction).
      - destruct (@yates_cells e (astype_float64 (IntArray arr)))
          as (o & Hy & _).
        + simpl. rewrite shape_arr. exact Hshape.
        + exists o. rewrite Hy. reflexivity.
      - eexists. reflexivity. }
    destruct Hobs as (o & ->). cbn [cbind run]. intros Hpd.
    destruct (Hpd _ _ _ _ _ eq_refl) as (c & p & Hcall & Hc).
    rewrite Hcall. simpl. exists c, p. eexists. eexists.
    split; [reflexivity | exact Hc].
Qed.

Lemma math_sqrt_nonneg (a : Qc) :
  (0 <= a)%Qc -> math_sqrt sqrt_Qc (Fin a) = Ok (Fin (sqrt_Qc a)).
Proof.
  intros Ha. unfold math_sqrt.
  replace (Qc_ltb a 0) with false by (symmetry; apply Qc_ltb_ge; exact Ha).
  reflexivity.
Qed.

(** X13.  On a 2-D integer table with at least two rows, at least two
    columns and strictly positive counts whose total is below 2^63, so
    that [arr.sum()] does not wrap around: if [power_divergence] answers
    the call made by the chi-square test on this table with a finite
    non-negative statistic, then [association] returns a finite number
    for each of the three methods; no division by zero and no math domain
    error occurs. *)
Theorem association_finite (method : string) :
  method = "cramer"%string \/ method = "tschuprow"%string \/
  method = "pearson"%string ->
  exists v : Qc,
    run pd (association sqrt_Qc (IntArray arr) method correction lambda_)
    = Ok (Fin v).
Proof.
  intros Hmethod.
  destruct run_chi2_two_by_two as (c & p & dof & e & Hrun & Hc).
  destruct total_in_range as [Hwrap Hpos].
  assert (Htotal : (0 < Qc_of_Z (asum arr))%Qc)
    by (apply Qc_of_Z_pos; exact Hpos).
  assert (Hphi : (0 <= c / Qc_of_Z (asum arr))%Qc)
    by (apply Qcdiv_nonneg; assumption).
  assert (Hphi2 : F64.div (Fin c) (F64.of_Z (asum arr))
                  = Fin (c / Qc_of_Z (asum arr))%Qc)
    by (apply div_Fin; apply Qc_pos_nonzero; exact Htotal).
  unfold association. rewrite shape_arr. simpl negb. cbv iota.
  rewrite run_cbind, Hrun. cbv zeta. cbn [fst]. simpl nth.
  rewrite Hwrap, Hphi2.
  destruct Hmethod as [-> | [-> | ->]]; simpl String.eqb; cbv iota.
  - cbn [cbind].
    assert (Hmin : (0 < Qc_of_Z (Z.min (Z.of_nat C - 1) (Z.of_nat R - 1)))%Qc)
      by (apply Qc_of_Z_pos; lia).
    unfold F64.of_Z.
    rewrite div_Fin by (apply Qc_pos_nonzero; exact Hmin).
    rewrite math_sqrt_nonneg by (apply Qcdiv_nonneg; assumption).
    eexists. reflexivity.
  - assert (Hprod : (0 < Qc_of_Z ((Z.of_nat R - 1) * (Z.of_nat C - 1)))%Qc)
      by (apply Qc_of_Z_pos; nia).
    pose proof (sqrt_Qc_pos Hprod) as Hroot.
    unfold F64.of_Z.
    rewrite math_sqrt_nonneg by (apply Qclt_le_weak; exact Hprod).
    cbn [lift cbind].
    rewrite div_Fin by (apply Qc_pos_nonzero; exact Hroot).
    rewrite math_sqrt_nonneg by (apply Qcdiv_nonneg; assumption).
    eexists. reflexivity.
  - cbn [cbind]. unfold F64.one. cbn [F64.add].
    pose proof (Qcplus_one_pos Hphi) as Hone.
    rewrite div_Fin by (apply Qc_pos_nonzero; exact Hone).
    rewrite math_sqrt_nonneg by (apply Qcdiv_nonneg; assumption).
    eexists. reflexivity.
Qed.

End AssociationOutcomes.

Lemma Qc_sqrt_floor_pos (x : Qc) : (0 < x)%Qc -> (0 < Qc_sqrt_floor x)%Qc.
Proof.
  intros Hx. unfold Qclt in *. unfold Qc_sqrt_floor.
  change (this (Q2Qc (Z.sqrt (Qnum x * Z.pos (Qden x)) # Qden x)))
    with (Qred (Z.sqrt (Qnum x * Z.pos (Qden x)) # Qden x)).
  rewrite Qred_correct.
  destruct x as [[n d] Hcanon]. cbn [this Qnum Qden] in *. clear Hcanon.
  change (this 0%Qc) with 0%Q in *.
  unfold Qlt in *. cbn [Qnum Qden] in *.
  assert (Hsqrt : (0 < Z.sqrt (n * Z.pos d))%Z) by (apply Z.sqrt_pos; nia).
  lia.
Qed.

Lemma constant_divergence_nonneg
    (o e : ndarray float64) (d : Z) (l : lambda_t) :
  exists c p, constant_divergence o e d l = Ok (Fin c, p) /\ (0 <= c)%Qc.
Proof.
  exists (Qc_of_Z 100), F64.half. split; [reflexivity|].
  apply Qc_of_Z_nonneg. lia.
Qed.

Lemma association_unknown_method_witness :
  let arr := array2 0%Z [[10; 20]; [30; 40]]%Z in
  ndim arr = 2 /\
  run constant_divergence
    (association Qc_sqrt_floor (IntArray arr) "phi" false LambdaNone)
  = Error UnknownMethod.
Proof.
  cbv zeta. split; [reflexivity|].
  rewrite (@association_unknown_method Qc_sqrt_floor constant_divergence
             (array2 0%Z [[10; 20]; [30; 40]]%Z) "phi" false LambdaNone
             eq_refl);
    try discriminate.
  assert (Hok : is_ok (run constant_divergence
                         (chi2_contingency
                            (IntArray (array2 0%Z [[10; 20]; [30; 40]]%Z))
                            false LambdaNone)) = true)
    by (vm_compute; reflexivity).
  destruct (run constant_divergence
              (chi2_contingency
                 (IntArray (array2 0%Z [[10; 20]; [30; 40]]%Z))
                 false LambdaNone));
    [reflexivity | discriminate Hok].
Defined.

Lemma association_finite_witness :
  exists v : Qc,
    run constant_divergence
      (association Qc_sqrt_floor
         (IntArray (array2 0%Z [[10; 20]; [30; 40]]%Z)) "tschuprow" true
         LambdaNone)
    = Ok (Fin v).
Proof.
  apply (@association_finite Qc_sqrt_floor constant_divergence
           Qc_sqrt_floor_pos (array2 0%Z [[10; 20]; [30; 40]]%Z) 2 2).
  - reflexivity.
  - lia.
  - lia.
  - intros idx Hin. each_coordinate Hin ltac:(vm_compute; reflexivity).
  - vm_compute. reflexivity.
  - intros f_obs f_exp ddof lam k _. apply constant_divergence_nonneg.
  - right. left. reflexivity.
Defined.

(* ================================================================== *)
(** ** Pearson's coefficient on a single row or column *)

(** X15.  On a 2-D integer table with exactly one row or one column and
    strictly positive counts whose total is below 2^63, the statistic is
    0.0, so phi2 = 0.0 / total is 0.0 and method "pearson" divides by
    1 + phi2 = 1: [association] returns [math.sqrt(0.0)], where "cramer"
    and "tschuprow" return NaN. *)
Theorem association_pearson_single_row_or_column (sqrt_Qc : Qc -> Qc)
    (arr : ndarray Z) (n : nat) (correction : bool) (lambda_ : lambda_t) :
  shape arr = [1; n] \/ shape arr = [n; 1] ->
  1 <= n ->
  (forall idx, In idx (indices (shape arr)) -> (0 < item arr idx)%Z) ->
  (asum arr < 2 ^ 63)%Z ->
  association sqrt_Qc (IntArray arr) "pearson" correction lambda_
  = Return (Fin (sqrt_Qc 0%Qc)).
Proof.
  intros Hshape Hn Hpos Hfits.
  destruct (@single_line_chi2 arr n Hshape Hn Hpos correction lambda_)
    as (e & Hchi2).
  assert (Hrank : length (shape arr) = 2)
    by (destruct Hshape as [-> | ->]; reflexivity).
  assert (Hsum : (0 < asum arr)%Z).
  { unfold asum, ravel. apply sum_list_Z_pos; [|exact Hpos].
    apply indices_nonempty. destruct Hshape as [-> | ->]; simpl; lia. }
  assert (Hwrap : int64_sum arr = asum arr).
  { unfold int64_sum, wrap_int64. rewrite Z.mod_small by lia. lia. }
  assert (Htotal : Qc_of_Z (asum arr) <> 0%Qc)
    by (apply Qc_pos_nonzero; apply Qc_of_Z_pos; exact Hsum).
  unfold association. rewrite Hwrap. rewrite Hrank, Hchi2. simpl negb. cbv iota.
  cbn [cbind]. cbv zeta. cbn [fst]. simpl String.eqb. cbv iota.
  cbn [cbind]. unfold F64.zero, F64.of_Z.
  rewrite div_Fin by exact Htotal. rewrite Qcdiv_0_l.
  unfold F64.one. cbn [F64.add].
  rewrite div_Fin.
  - rewrite Qcdiv_0_l. reflexivity.
  - rewrite Qcplus_0_r. apply Q_apart_0_1.
Qed.

Lemma association_pearson_single_row_or_column_witness :
  association Qc_sqrt_floor (Zs [[3; 5]]%Z) "pearson" false LambdaNone
  = Return (Fin (Qc_sqrt_floor 0%Qc)).
Proof.
  apply (@association_pearson_single_row_or_column Qc_sqrt_floor
           (array2 0%Z [[3; 5]]%Z) 2).
  - left. reflexivity.
  - lia.
  - intros idx Hin. each_coordinate Hin ltac:(vm_compute; reflexivity).
  - vm_compute. reflexivity.
Defined.

(* ================================================================== *)
(** ** What is passed to [power_divergence] *)



(* ================================================================== *)
(** ** Reducing the marginals with a broadcasting operation *)

(** Clipping twice. *)
Lemma clip_index_twice (s1 : list nat) :
  forall (s2 : list nat) (idx : index),
    length s2 = length s1 -> length idx = length s1 ->
    (forall p, p < length s1 -> nth p s2 0 = 1 -> nth p s1 0 = 1) ->
    clip_index s1 (clip_index s2 idx) = clip_index s1 idx.
Proof.
  induction s1 as [|d1 s1 IH]; intros [|d2 s2] [|i idx] H2 Hi Hone;
    simpl in *; try reflexivity; try discriminate.
  f_equal.
  - destruct (Nat.eqb_spec d1 1) as [_|Hne]; [reflexivity|].
    destruct (Nat.eqb_spec d2 1) as [->|_]; [|reflexivity].
    exfalso. apply Hne. apply (Hone 0); [lia | reflexivity].
  - apply IH; try lia.
    intros p Hp. apply (Hone (S p)). lia.
Qed.

Lemma nth_prefix_shape_beyond (j p : nat) (s : list nat) :
  j <= p -> p < length s -> nth p (prefix_shape j s) 0 = 1.
Proof.
  intros Hjp Hp. unfold prefix_shape.
  rewrite app_nth2; rewrite length_firstn, Nat.min_l by lia; [|lia].
  apply nth_repeat_1. lia.
Qed.

Section ReduceBroadcast.

Context {A : Type}.
Variable f : A -> A -> A.
Variable s : list nat.
Variable M : nat -> ndarray A.
Hypothesis shape_M : forall k, k < length s -> shape (M k) = keep_axis k s.

Let cells (j : nat) (idx : index) : A :=
  fold_left f (map (fun k => broadcast_cell (M k) idx) (seq 1 (j - 1)))
    (broadcast_cell (M 0) idx).

Let upto (j : nat) (acc : ndarray A) : Prop :=
  shape acc = prefix_shape j s /\
  forall idx, length idx = length s ->
    item acc (clip_index (prefix_shape j s) idx) = cells j idx.

Lemma broadcast_upto_first : 1 <= length s -> upto 1 (M 0).
Proof.
  intros Hn.
  assert (Hshape : shape (M 0) = prefix_shape 1 s).
  { rewrite shape_M by lia. destruct s as [|d s']; [simpl in Hn; lia|].
    apply keep_axis_0. }
  split; [exact Hshape|].
  intros idx _. unfold cells, broadcast_cell. simpl. now rewrite Hshape.
Qed.

Lemma broadcast_upto_step (j : nat) (acc : ndarray A) :
  1 <= j -> j < length s -> upto j acc ->
  exists acc', broadcast2 f acc (M j) = Ok acc' /\ upto (S j) acc'.
Proof.
  intros H1 Hj [Hshape Hitem].
  pose proof (shape_M Hj) as HM.
  unfold broadcast2. rewrite Hshape, HM.
  rewrite broadcast_shapes_same_rank
    by (rewrite length_prefix_shape, length_keep_axis; lia).
  rewrite broadcast_prefix_keep_axis by exact Hj. simpl.
  eexists. split; [reflexivity|]. split; [reflexivity|].
  intros idx Hlen. simpl item.
  assert (Hclip : length (clip_index (prefix_shape (S j) s) idx) = length s).
  { rewrite length_clip_index; rewrite length_prefix_shape; lia. }
  rewrite !broadcast_index_same_rank
    by (rewrite ?length_prefix_shape, ?length_keep_axis; lia).
  rewrite !clip_index_twice.
  - rewrite Hitem by exact Hlen.
    unfold cells. replace (S j - 1) with (S (j - 1)) by lia.
    rewrite seq_S, map_app, fold_left_app. simpl.
    replace (S (j - 1)) with j by lia.
    f_equal. unfold broadcast_cell. rewrite HM. reflexivity.
  - rewrite length_prefix_shape, length_keep_axis; lia.
  - rewrite length_keep_axis. exact Hlen.
  - rewrite length_keep_axis. intros p Hp Hone.
    rewrite nth_keep_axis by exact Hp.
    destruct (Nat.eqb_spec p j) as [->|Hne]; [|reflexivity].
    rewrite nth_prefix_shape in Hone by lia. exact Hone.
  - rewrite !length_prefix_shape; lia.
  - rewrite length_prefix_shape by lia. exact Hlen.
  - rewrite length_prefix_shape by lia. intros p Hp Hone.
    destruct (Nat.lt_ge_cases p j) as [Hlt|Hge].
    + rewrite nth_prefix_shape in Hone |- * by lia. exact Hone.
    + apply nth_prefix_shape_beyond; lia.
Qed.

Lemma broadcast_fold_margins (m : nat) :
  forall (j : nat) (acc : ndarray A),
    1 <= j -> j + m = length s -> upto j acc ->
    exists r,
      fold_left (fun acc y => a <- acc ;; broadcast2 f a y)
        (map M (seq j m)) (Ok acc) = Ok r /\
      upto (length s) r.
Proof.
  induction m as [|m IH]; intros j acc H1 Hjm Hacc.
  - exists acc. split; [reflexivity|].
    replace (length s) with j by lia. exact Hacc.
  - simpl.
    assert (Hlt : j < length s) by lia.
    destruct (broadcast_upto_step H1 Hlt Hacc) as (acc' & Hmul & Hacc').
    rewrite Hmul. apply IH; [lia | lia | exact Hacc'].
Qed.

(** Reducing the marginals with a broadcasting operation gives an array
    of the full shape; its cell at [idx] combines, from the first
    marginal to the last, the cells that broadcasting aligns with
    [idx]. *)
Lemma reduce_broadcast_margins :
  1 <= length s ->
  exists r,
    reduce (broadcast2 f) (map M (seq 0 (length s))) = Ok r /\
    shape r = s /\
    forall idx, In idx (indices s) ->
      broadcast_fold f (map M (seq 0 (length s))) idx = Some (item r idx).
Proof.
  intros Hn.
  assert (Hseq : seq 0 (length s) = 0 :: seq 1 (length s - 1)).
  { destruct (length s) as [|n]; [lia|]. simpl. now rewrite Nat.sub_0_r. }
  rewrite Hseq. simpl map. simpl reduce.
  destruct (@broadcast_fold_margins (length s - 1) 1 (M 0))
    as (r & Hred & Hshape & Hitem).
  - lia.
  - lia.
  - apply broadcast_upto_first. exact Hn.
  - exists r. split; [exact Hred|]. split.
    + rewrite Hshape. apply prefix_shape_all.
    + intros idx Hin. simpl. f_equal.
      specialize (Hitem idx (in_indices_length _ _ Hin)).
      rewrite prefix_shape_all in Hitem.
      rewrite clip_index_in_range in Hitem by exact Hin.
      rewrite Hitem. unfold cells. rewrite map_map. reflexivity.
Qed.

End ReduceBroadcast.

(* ================================================================== *)
(** ** The marginals over binary64 *)

Section Binary64Model.

Variable add_reduce : list nat -> option nat -> list binary64 -> binary64.
Variable power : binary64 -> Z -> binary64.

Lemma ieee_apply_over_axes_step (a : ndarray binary64) (axis : nat)
    (rest : list nat) :
  axis < ndim a ->
  apply_over_axes (IEEE.np_sum add_reduce) a (axis :: rest)
  = apply_over_axes (IEEE.np_sum add_reduce)
      (IEEE.sum_keepdims add_reduce a axis) rest.
Proof.
  intros Hlt. simpl. unfold IEEE.np_sum.
  apply Nat.ltb_lt in Hlt as Hb. rewrite Hb. simpl.
  unfold ndim at 1 2. simpl.
  rewrite length_remove_at by exact Hlt.
  unfold ndim in Hlt.
  destruct (length (shape a) - 1 =? length (shape a)) eqn:E.
  - apply Nat.eqb_eq in E. lia.
  - unfold ndim at 1 2. simpl.
    rewrite length_insert_at, length_remove_at by exact Hlt.
    replace (S (length (shape a) - 1)) with (length (shape a)) by lia.
    rewrite Nat.eqb_refl. simpl. reflexivity.
Qed.

Lemma ieee_apply_over_axes_np_sum (axes : list nat) :
  forall a : ndarray binary64,
    Forall (fun j => j < ndim a) axes ->
    apply_over_axes (IEEE.np_sum add_reduce) a axes
    = Ok (fold_left (IEEE.sum_keepdims add_reduce) axes a).
Proof.
  induction axes as [|j axes IH]; intros a Hall.
  - reflexivity.
  - inversion Hall as [|? ? Hj Hrest]; subst.
    rewrite ieee_apply_over_axes_step by exact Hj.
    simpl fold_left. apply IH.
    assert (Hn : ndim (IEEE.sum_keepdims add_reduce a j) = ndim a).
    { unfold ndim, IEEE.sum_keepdims. simpl. apply length_set_at. exact Hj. }
    rewrite Hn. exact Hrest.
Qed.

Lemma ieee_margins_ok (a : ndarray binary64) :
  IEEE.margins add_reduce a
  = Ok (map (IEEE.margin add_reduce a) (seq 0 (ndim a))).
Proof.
  unfold IEEE.margins. apply mapM_total.
  intros k _. unfold IEEE.margin. apply ieee_apply_over_axes_np_sum.
  apply Forall_forall. intros j Hj.
  apply filter_In in Hj. destruct Hj as [Hj _].
  apply in_seq in Hj. lia.
Qed.

(** The shape of an array summed over some axes depends on its shape
    only. *)
Lemma shape_fold_sum_keepdims {A} `{Numeric A} (axes : list nat) :
  forall a : ndarray A,
    shape (fold_left sum_keepdims axes a)
    = fold_left (fun sh axis => set_at axis 1 sh) axes (shape a).
Proof.
  induction axes as [|j axes IH]; intros a; simpl.
  - reflexivity.
  - rewrite IH. reflexivity.
Qed.

Lemma ieee_shape_fold_sum_keepdims (axes : list nat) :
  forall a : ndarray binary64,
    shape (fold_left (IEEE.sum_keepdims add_reduce) axes a)
    = fold_left (fun sh axis => set_at axis 1 sh) axes (shape a).
Proof.
  induction axes as [|j axes IH]; intros a; simpl.
  - reflexivity.
  - rewrite IH. reflexivity.
Qed.

Lemma ieee_shape_margin (a : ndarray binary64) (k : nat) :
  k < ndim a -> shape (IEEE.margin add_reduce a k) = keep_axis k (shape a).
Proof.
  intros Hk. unfold IEEE.margin.
  rewrite ieee_shape_fold_sum_keepdims.
  rewrite <- (@shape_margin Z _ (shape a) (fun _ => 0%Z) k Hk).
  unfold margin. rewrite shape_fold_sum_keepdims. reflexivity.
Qed.

(* ================================================================== *)
(** ** Expected frequencies and Yates' correction over binary64 *)

Lemma ieee_expected_freq_rank_0 (observed : array_like) :
  ndim (IEEE.astype_float64 observed) = 0 ->
  IEEE.expected_freq add_reduce power observed = Error ReduceEmpty.
Proof.
  intros Hn. unfold IEEE.expected_freq.
  rewrite ieee_margins_ok, Hn. reflexivity.
Qed.

Lemma ieee_expected_freq_cells (observed : array_like) :
  let table := IEEE.astype_float64 observed in
  1 <= ndim table ->
  exists margsums expected,
    IEEE.margins add_reduce table = Ok margsums /\
    length margsums = ndim table /\
    IEEE.expected_freq add_reduce power observed = Ok expected /\
    shape expected = shape table /\
    forall idx, In idx (indices (shape table)) ->
      exists numer,
        broadcast_fold B64.mul margsums idx = Some numer /\
        item expected idx
        = B64.div numer
            (power (IEEE.asum add_reduce table) (Z.of_nat (ndim table) - 1)%Z).
Proof.
  intros table Hn.
  exists (map (IEEE.margin add_reduce table) (seq 0 (ndim table))).
  destruct (@reduce_broadcast_margins _ B64.mul (shape table)
              (IEEE.margin add_reduce table))
    as (r & Hred & Hshape & Hitem).
  - intros k Hk. apply ieee_shape_margin. exact Hk.
  - exact Hn.
  - exists (amap (fun x => B64.div x
                      (power (IEEE.asum add_reduce table)
                         (Z.of_nat (ndim table) - 1)%Z)) r).
    split; [apply ieee_margins_ok|].
    split; [now rewrite length_map, length_seq|].
    split.
    + unfold IEEE.expected_freq. fold table.
      rewrite ieee_margins_ok. cbn [rbind].
      change (reduce IEEE.np_multiply
                (map (IEEE.margin add_reduce table) (seq 0 (ndim table))))
        with (reduce (broadcast2 B64.mul)
                (map (IEEE.margin add_reduce table)
                   (seq 0 (length (shape table))))).
      rewrite Hred. reflexivity.
    + split; [exact Hshape|].
      intros idx Hin. exists (item r idx). split; [|reflexivity].
      apply Hitem. exact Hin.
Qed.

Lemma ieee_expected_freq_shape (observed : array_like)
    (expected : ndarray binary64) :
  IEEE.expected_freq add_reduce power observed = Ok expected ->
  shape expected = shape (IEEE.astype_float64 observed).
Proof.
  intros Hexp.
  destruct (ndim (IEEE.astype_float64 observed)) as [|n] eqn:En.
  - rewrite ieee_expected_freq_rank_0 in Hexp by exact En. discriminate.
  - destruct (@ieee_expected_freq_cells observed)
      as (ms & e & _ & _ & Hok & Hshape & _).
    + rewrite En. lia.
    + congruence.
Qed.

Lemma ieee_yates_cells (expected observed : ndarray binary64) :
  shape expected = shape observed ->
  exists corrected,
    IEEE.yates expected observed = Ok corrected /\
    shape corrected = shape observed /\
    forall idx, In idx (indices (shape observed)) ->
      item corrected idx
      = IEEE.yates_cell (item expected idx) (item observed idx).
Proof.
  intros Hshape. unfold IEEE.yates.
  rewrite (broadcast2_same_shape B64.sub expected observed Hshape).
  cbn [rbind].
  rewrite broadcast2_same_shape by reflexivity.
  cbn [rbind].
  rewrite broadcast2_same_shape by (cbn [shape amap]; congruence).
  eexists. split; [reflexivity|]. split; [reflexivity|].
  intros idx Hin. cbn [item shape amap].
  rewrite <- Hshape in Hin |- *.
  rewrite !(broadcast_index_in_range _ _ Hin). reflexivity.
Qed.

Lemma ieee_chi2_contingency_call_inv (observed : array_like)
    (correction : bool) (lambda_ lam : lambda_t)
    (f_obs f_exp : ndarray binary64) (ddof : Z)
    (k : binary64 * binary64 ->
         IEEE.comp (binary64 * binary64 * Z * ndarray binary64)) :
  IEEE.chi2_contingency add_reduce power observed correction lambda_
  = IEEE.PowerDivergence f_obs f_exp ddof lam k ->
  IEEE.expected_freq add_reduce power observed = Ok f_exp /\
  (((degrees_of_freedom f_exp =? 1)%Z && correction = true /\
    IEEE.yates f_exp (IEEE.astype_float64 observed) = Ok f_obs) \/
   ((degrees_of_freedom f_exp =? 1)%Z && correction = false /\
    f_obs = IEEE.astype_float64 observed)).
Proof.
  unfold IEEE.chi2_contingency.
  destruct (IEEE.any_negative observed); [discriminate|].
  destruct (size (IEEE.astype_float64 observed) =? 0); [discriminate|].
  destruct (IEEE.expected_freq add_reduce power observed) as [e|err];
    [|discriminate].
  cbn [IEEE.lift IEEE.cbind].
  destruct (np_any (amap (fun x => B64.eqb x B64.zero) e)).
  { destruct (nonzero_coords _); discriminate. }
  destruct (degrees_of_freedom e =? 0)%Z; [discriminate|].
  destruct ((degrees_of_freedom e =? 1)%Z && correction) eqn:Hyates.
  - destruct (IEEE.yates e (IEEE.astype_float64 observed)) as [o|err] eqn:Hy;
      [|discriminate].
    cbn [IEEE.lift IEEE.cbind]. intros H. inversion H; subst.
    split; [reflexivity|]. left. split; [exact Hyates | exact Hy].
  - cbn [IEEE.cbind]. intros H. inversion H; subst.
    split; [reflexivity|]. right. split; [exact Hyates | reflexivity].
Qed.

End Binary64Model.

(* ================================================================== *)
(** ** Facts about binary64 *)

Section SpecFloatFacts.

Import SpecFloat FloatOps FloatAxioms.

Lemma canonical_of_valid (s : bool) (m : positive) (e : Z) :
  valid_binary (S754_finite s m e) = true ->
  fexp prec emax (Zpos (digits2_pos m) + e) = e /\ (e <= emax - prec)%Z.
Proof.
  unfold SpecFloat.valid_binary, bounded, canonical_mantissa.
  intros H. apply andb_true_iff in H. destruct H as [H1 H2].
  apply Z.eqb_eq in H1. apply Z.leb_le in H2. split; assumption.
Qed.

(** Rounding [m * 2^52] at exponent [e - 52] gives back [m] at [e]: the
    52 low bits are zero and nothing is lost. *)
Lemma round_shifted_52 (s : bool) (m : positive) (e : Z) :
  valid_binary (S754_finite s m e) = true ->
  binary_round_aux prec emax s (Zpos (4503599627370496 * m)) (e + -52)
    loc_Exact
  = S754_finite s m e.
Proof.
  intros Hv. destruct (canonical_of_valid _ _ _ Hv) as [Hc He].
  unfold binary_round_aux, shr_fexp.
  cbn [Pos.mul Zdigits2 digits2_pos].
  rewrite !Pos2Z.inj_succ.
  replace (fexp prec emax _)
    with (fexp prec emax (Zpos (digits2_pos m) + e)) by (f_equal; lia).
  rewrite Hc.
  replace (e - (e + -52))%Z with 52%Z by lia.
  cbn [shr iter_pos shr_1 shr_record_of_loc orb shr_m loc_of_shr_record
       round_nearest_even Zdigits2].
  replace (e + -52 + 52)%Z with e by lia.
  rewrite Hc, Z.sub_diag.
  cbn [shr shr_m].
  apply Z.leb_le in He. rewrite He. reflexivity.
Qed.

Lemma SFmul_one_r (x : spec_float) :
  valid_binary x = true ->
  SFmul prec emax x (S754_finite false 4503599627370496 (-52)) = x.
Proof.
  intros Hv. destruct x as [s|s| |s m e]; cbn [SFmul];
    rewrite ?xorb_false_r; try reflexivity.
  rewrite Pos.mul_comm. apply round_shifted_52. exact Hv.
Qed.

Lemma SFmul_minus_one_r (x : spec_float) :
  valid_binary x = true ->
  SFmul prec emax x (S754_finite true 4503599627370496 (-52)) = SFopp x.
Proof.
  intros Hv. destruct x as [s|s| |s m e]; cbn [SFmul SFopp];
    rewrite ?xorb_true_r; try reflexivity.
  rewrite Pos.mul_comm. apply round_shifted_52. exact Hv.
Qed.

Lemma SFcompare_antisym (x y : spec_float) :
  SFcompare y x = option_map CompOpp (SFcompare x y).
Proof.
  destruct x as [sx|sx| |sx mx ex], y as [sy|sy| |sy my ey];
    try reflexivity;
    try (destruct sx; reflexivity);
    try (destruct sy; reflexivity);
    try (destruct sx, sy; reflexivity).
  cbn [SFcompare option_map]. f_equal.
  rewrite (Z.compare_antisym ex ey).
  change PosDef.Pos.compare_cont with Pos.compare_cont.
  destruct sx, sy; try reflexivity;
    destruct (ex ?= ey)%Z; cbn [CompOpp]; try reflexivity;
    rewrite (Pos.compare_cont_antisym mx my Eq); reflexivity.
Qed.

Lemma SFcompare_finite_refl (s : bool) (m : positive) (e : Z) :
  SFcompare (S754_finite s m e) (S754_finite s m e) = Some Eq.
Proof.
  cbn [SFcompare]. rewrite Z.compare_refl.
  change (PosDef.Pos.compare_cont Eq m m) with (Pos.compare m m).
  rewrite Pos.compare_refl. destruct s; reflexivity.
Qed.

Lemma SFcompare_finite_eq (s : bool) (m1 m2 : positive) (e1 e2 : Z) :
  SFcompare (S754_finite s m1 e1) (S754_finite s m2 e2) = Some Eq ->
  m1 = m2 /\ e1 = e2.
Proof.
  cbn [SFcompare]. destruct (Z.compare_spec e1 e2) as [->|Hlt|Hgt];
    destruct s; try discriminate.
  - change (PosDef.Pos.compare_cont Eq m1 m2) with (Pos.compare m1 m2).
    destruct (Pos.compare_spec m1 m2); try discriminate.
    intros _. split; [assumption | reflexivity].
  - change (PosDef.Pos.compare_cont Eq m1 m2) with (Pos.compare m1 m2).
    destruct (Pos.compare_spec m1 m2); try discriminate.
    intros _. split; [assumption | reflexivity].
Qed.

End SpecFloatFacts.

(** *** Special values, products and comparisons *)

Lemma Prim2SF_zero :
  FloatOps.Prim2SF B64.zero = SpecFloat.S754_zero false.
Proof. reflexivity. Qed.

Lemma Prim2SF_one :
  FloatOps.Prim2SF B64.one
  = SpecFloat.S754_finite false 4503599627370496 (-52).
Proof. reflexivity. Qed.

Lemma Prim2SF_minus_one :
  FloatOps.Prim2SF (B64.opp B64.one)
  = SpecFloat.S754_finite true 4503599627370496 (-52).
Proof. reflexivity. Qed.

Lemma Prim2SF_half :
  FloatOps.Prim2SF B64.half
  = SpecFloat.S754_finite false 4503599627370496 (-53).
Proof. reflexivity. Qed.

(** Multiplying by 1.0 or by -1.0 is exact. *)
Lemma b64_mul_one_r (x : binary64) : B64.mul x B64.one = x.
Proof.
  apply FloatAxioms.Prim2SF_inj. unfold B64.mul.
  rewrite FloatAxioms.mul_spec, Prim2SF_one.
  apply SFmul_one_r. apply FloatAxioms.Prim2SF_valid.
Qed.

Lemma b64_mul_minus_one_r (x : binary64) :
  B64.mul x (B64.opp B64.one) = B64.opp x.
Proof.
  apply FloatAxioms.Prim2SF_inj. unfold B64.mul.
  rewrite FloatAxioms.mul_spec, Prim2SF_minus_one.
  unfold B64.opp at 1. rewrite FloatAxioms.opp_spec.
  apply SFmul_minus_one_r. apply FloatAxioms.Prim2SF_valid.
Qed.

(** A double is NaN, a zero, an infinity, or a signed mantissa and
    exponent. *)
Lemma b64_cases (x : binary64) :
  x = PrimFloat.nan \/ x = PrimFloat.zero \/ x = PrimFloat.neg_zero \/
  x = PrimFloat.infinity \/ x = PrimFloat.neg_infinity \/
  exists s m e, FloatOps.Prim2SF x = SpecFloat.S754_finite s m e.
Proof.
  pose proof (FloatAxioms.SF2Prim_Prim2SF x) as H.
  destruct (FloatOps.Prim2SF x) as [[|]|[|]| |s m e];
    cbn [FloatOps.SF2Prim] in H; try (symmetry in H; tauto).
  right. right. right. right. right. exists s, m, e. reflexivity.
Qed.

Lemma b64_abs_abs (x : binary64) : B64.abs (B64.abs x) = B64.abs x.
Proof.
  apply FloatAxioms.Prim2SF_inj. unfold B64.abs.
  rewrite !FloatAxioms.abs_spec.
  destruct (FloatOps.Prim2SF x); reflexivity.
Qed.

Lemma b64_abs_opp (x : binary64) : B64.abs (B64.opp x) = B64.abs x.
Proof.
  apply FloatAxioms.Prim2SF_inj. unfold B64.abs, B64.opp.
  rewrite !FloatAxioms.abs_spec, FloatAxioms.opp_spec.
  destruct (FloatOps.Prim2SF x); reflexivity.
Qed.

Lemma b64_minimum_half (x : binary64) :
  B64.minimum B64.half x = if B64.leb B64.half x then B64.half else x.
Proof.
  unfold B64.minimum.
  change (B64.is_nan B64.half) with false. now rewrite orb_false_r.
Qed.

Lemma finite_abs (d : binary64) (s : bool) :
  finite_with_sign d s -> finite_with_sign (B64.abs d) false.
Proof.
  intros (m & e & E). exists m, e.
  unfold B64.abs. rewrite FloatAxioms.abs_spec, E. reflexivity.
Qed.

Lemma finite_opp (d : binary64) (s : bool) :
  finite_with_sign d s -> finite_with_sign (B64.opp d) (negb s).
Proof.
  intros (m & e & E). exists m, e.
  unfold B64.opp. rewrite FloatAxioms.opp_spec, E. reflexivity.
Qed.

Lemma finite_ltb_zero_l (d : binary64) (s : bool) :
  finite_with_sign d s -> B64.ltb B64.zero d = negb s.
Proof.
  intros (m & e & E).
  unfold B64.ltb. rewrite FloatAxioms.ltb_spec, Prim2SF_zero, E.
  destruct s; reflexivity.
Qed.

Lemma finite_ltb_zero_r (d : binary64) (s : bool) :
  finite_with_sign d s -> B64.ltb d B64.zero = s.
Proof.
  intros (m & e & E).
  unfold B64.ltb. rewrite FloatAxioms.ltb_spec, Prim2SF_zero, E.
  destruct s; reflexivity.
Qed.

Lemma finite_eqb_zero (d : binary64) (s : bool) :
  finite_with_sign d s -> B64.eqb d B64.zero = false.
Proof.
  intros (m & e & E).
  unfold B64.eqb. rewrite FloatAxioms.eqb_spec, Prim2SF_zero, E.
  destruct s; reflexivity.
Qed.

Lemma finite_is_nan (d : binary64) (s : bool) :
  finite_with_sign d s -> B64.is_nan d = false.
Proof.
  intros (m & e & E).
  unfold B64.is_nan. rewrite FloatAxioms.eqb_spec, E.
  unfold SpecFloat.SFeqb. rewrite SFcompare_finite_refl. reflexivity.
Qed.

Lemma finite_sign (d : binary64) (s : bool) :
  finite_with_sign d s ->
  B64.sign d = if s then B64.opp B64.one else B64.one.
Proof.
  intros H. unfold B64.sign.
  rewrite (finite_ltb_zero_l H), (finite_ltb_zero_r H).
  destruct s; reflexivity.
Qed.

Lemma finite_leb_refl (d : binary64) (s : bool) :
  finite_with_sign d s -> B64.leb d d = true.
Proof.
  intros (m & e & E).
  unfold B64.leb. rewrite FloatAxioms.leb_spec, E.
  unfold SpecFloat.SFleb. rewrite SFcompare_finite_refl. reflexivity.
Qed.

(** The order of doubles is total away from NaN. *)
Lemma finite_leb_half (d : binary64) (s : bool) :
  finite_with_sign d s ->
  B64.leb B64.half d = false -> B64.leb d B64.half = true.
Proof.
  intros (m & e & E).
  unfold B64.leb. rewrite !FloatAxioms.leb_spec, E, Prim2SF_half.
  unfold SpecFloat.SFleb.
  rewrite (SFcompare_antisym
             (SpecFloat.S754_finite false 4503599627370496 (-53))
             (SpecFloat.S754_finite s m e)).
  destruct (SpecFloat.SFcompare
              (SpecFloat.S754_finite false 4503599627370496 (-53))
              (SpecFloat.S754_finite s m e)) as [[| |]|] eqn:Ecmp;
    cbn [option_map CompOpp]; try discriminate; try reflexivity.
Qed.

(** Two doubles that compare equal and are not zeros are the same
    double. *)
Lemma finite_leb_antisym_half (d : binary64) :
  finite_with_sign d false ->
  B64.leb B64.half d = true -> B64.leb d B64.half = true -> d = B64.half.
Proof.
  intros (m & e & E).
  unfold B64.leb. rewrite !FloatAxioms.leb_spec, E, Prim2SF_half.
  unfold SpecFloat.SFleb.
  rewrite (SFcompare_antisym
             (SpecFloat.S754_finite false 4503599627370496 (-53))
             (SpecFloat.S754_finite false m e)).
  destruct (SpecFloat.SFcompare
              (SpecFloat.S754_finite false 4503599627370496 (-53))
              (SpecFloat.S754_finite false m e)) as [[| |]|] eqn:Ecmp;
    cbn [option_map CompOpp]; try discriminate.
  intros _ _. apply SFcompare_finite_eq in Ecmp. destruct Ecmp as [<- <-].
  apply FloatAxioms.Prim2SF_inj. rewrite E, Prim2SF_half. reflexivity.
Qed.

Lemma adjustment_finite (d : binary64) (s : bool) :
  finite_with_sign d s ->
  B64.abs (IEEE.adjustment d) = B64.minimum B64.half (B64.abs d) /\
  B64.ltb B64.zero (IEEE.adjustment d) = B64.ltb B64.zero d /\
  B64.ltb (IEEE.adjustment d) B64.zero = B64.ltb d B64.zero /\
  B64.leb (B64.abs (IEEE.adjustment d)) B64.half = true /\
  B64.leb (B64.abs (IEEE.adjustment d)) (B64.abs d) = true.
Proof.
  intros Hd. pose proof (finite_abs Hd) as Habs.
  unfold IEEE.adjustment.
  rewrite (finite_sign Hd), b64_minimum_half,
    (finite_ltb_zero_l Hd), (finite_ltb_zero_r Hd).
  destruct (B64.leb B64.half (B64.abs d)) eqn:Hb; destruct s;
    rewrite ?b64_mul_one_r, ?b64_mul_minus_one_r, ?b64_abs_opp, ?b64_abs_abs;
    repeat split;
    try reflexivity;
    try exact Hb;
    try exact (finite_leb_refl Habs);
    try exact (finite_leb_half Habs Hb).
  - rewrite (finite_ltb_zero_l (finite_opp Habs)). reflexivity.
  - rewrite (finite_ltb_zero_r (finite_opp Habs)). reflexivity.
  - rewrite (finite_ltb_zero_l Habs). reflexivity.
  - rewrite (finite_ltb_zero_r Habs). reflexivity.
Qed.

Ltac decide_closed :=
  let H := fresh "H" in
  intros H;
  first [ vm_compute in H; discriminate H
        | vm_compute; reflexivity
        | split; vm_compute; reflexivity ].

Ltac special_value :=
  split; [vm_compute; reflexivity|];
  split; [decide_closed|];
  split; [decide_closed|];
  split; [decide_closed|];
  decide_closed.

(** Lines 292-294 on one cell, for every double [d = expected - observed]:
    the adjustment [magnitude * direction] has magnitude
    [min(0.5, |d|)] and the sign of [d]. *)
Lemma adjustment_spec (d : binary64) :
  B64.abs (IEEE.adjustment d) = B64.minimum B64.half (B64.abs d) /\
  (B64.ltb B64.zero d = true -> B64.ltb B64.zero (IEEE.adjustment d) = true) /\
  (B64.ltb d B64.zero = true -> B64.ltb (IEEE.adjustment d) B64.zero = true) /\
  (B64.eqb d B64.zero = true -> B64.eqb (IEEE.adjustment d) B64.zero = true) /\
  (B64.is_nan d = false ->
   B64.leb (B64.abs (IEEE.adjustment d)) B64.half = true /\
   B64.leb (B64.abs (IEEE.adjustment d)) (B64.abs d) = true).
Proof.
  destruct (b64_cases d) as [->|[->|[->|[->|[->|(s & m & e & E)]]]]].
  - special_value.
  - special_value.
  - special_value.
  - special_value.
  - special_value.
  - assert (Hd : finite_with_sign d s) by (exists m, e; exact E).
    destruct (adjustment_finite Hd) as (Habs & Hpos & Hneg & Hhalf & Hle).
    split; [exact Habs|].
    split; [intros H; now rewrite Hpos|].
    split; [intros H; now rewrite Hneg|].
    split; [intros H; rewrite (finite_eqb_zero Hd) in H; discriminate|].
    intros _. split; assumption.
Qed.

(** A difference [d] that is not zero and at most 0.5 in magnitude is the
    adjustment itself. *)
Lemma adjustment_small (d : binary64) :
  B64.eqb d B64.zero = false ->
  B64.leb (B64.abs d) B64.half = true ->
  IEEE.adjustment d = d.
Proof.
  destruct (b64_cases d) as [->|[->|[->|[->|[->|(s & m & e & E)]]]]];
    try (intros H; vm_compute in H; discriminate H);
    try (intros _ H; vm_compute in H; discriminate H).
  intros _ Hle.
  assert (Hd : finite_with_sign d s) by (exists m, e; exact E).
  pose proof (finite_abs Hd) as Habs.
  unfold IEEE.adjustment. rewrite (finite_sign Hd), b64_minimum_half.
  assert (Hmin : (if B64.leb B64.half (B64.abs d) then B64.half
                  else B64.abs d) = B64.abs d).
  { destruct (B64.leb B64.half (B64.abs d)) eqn:Hb; [|reflexivity].
    symmetry. apply finite_leb_antisym_half; assumption. }
  rewrite Hmin.
  apply FloatAxioms.Prim2SF_inj.
  destruct s; rewrite ?b64_mul_one_r, ?b64_mul_minus_one_r;
    unfold B64.opp, B64.abs;
    rewrite ?FloatAxioms.opp_spec, FloatAxioms.abs_spec, E; reflexivity.
Qed.

(** A difference larger than 0.5 in magnitude gives an adjustment of
    exactly 0.5 in its direction. *)
Lemma adjustment_large (d : binary64) :
  B64.ltb B64.half (B64.abs d) = true ->
  (B64.ltb B64.zero d = true -> IEEE.adjustment d = B64.half) /\
  (B64.ltb d B64.zero = true -> IEEE.adjustment d = B64.opp B64.half).
Proof.
  destruct (b64_cases d) as [->|[->|[->|[->|[->|(s & m & e & E)]]]]];
    try (intros H; vm_compute in H; discriminate H);
    try (intros _; split; intros H; try reflexivity;
         vm_compute in H; discriminate H).
  intros Hlt.
  assert (Hd : finite_with_sign d s) by (exists m, e; exact E).
  assert (Hb : B64.leb B64.half (B64.abs d) = true).
  { revert Hlt. unfold B64.ltb, B64.leb.
    rewrite FloatAxioms.ltb_spec, FloatAxioms.leb_spec.
    unfold SpecFloat.SFltb, SpecFloat.SFleb.
    destruct (SpecFloat.SFcompare _ _) as [[| |]|]; congruence. }
  unfold IEEE.adjustment.
  rewrite (finite_sign Hd), b64_minimum_half, Hb,
    (finite_ltb_zero_l Hd), (finite_ltb_zero_r Hd).
  destruct s; split; intros H; try discriminate H; reflexivity.
Qed.

(** *** Running a computation over binary64 *)

Lemma ieee_run_cbind {A B : Type}
    (power_divergence : ndarray binary64 -> ndarray binary64 -> Z ->
                        lambda_t -> result (binary64 * binary64))
    (c : IEEE.comp A) (f : A -> IEEE.comp B) :
  IEEE.run power_divergence (IEEE.cbind c f)
  = rbind (IEEE.run power_divergence c)
      (fun a => IEEE.run power_divergence (f a)).
Proof.
  induction c as [a | e | o e d l k IH]; simpl; try reflexivity.
  destruct (power_divergence o e d l) as [r | x]; [apply IH | reflexivity].
Qed.

Lemma b64_of_Z_zero : B64.of_Z 0 = B64.zero.
Proof. vm_compute. reflexivity. Qed.

(** Dividing by a zero total gives an infinity or NaN, and Pearson's
    quotient [phi2 / (1 + phi2)] of either is NaN. *)
Lemma pearson_zero_total (chi2 : binary64) :
  let phi2 := B64.div chi2 B64.zero in
  B64.div phi2 (B64.add B64.one phi2) = PrimFloat.nan.
Proof.
  cbv zeta. apply FloatAxioms.Prim2SF_inj. unfold B64.div, B64.add.
  rewrite FloatAxioms.div_spec, FloatAxioms.add_spec, FloatAxioms.div_spec.
  rewrite Prim2SF_zero, Prim2SF_one.
  destruct (FloatOps.Prim2SF chi2) as [[|]|[|]| |[|] m e]; reflexivity.
Qed.

(* ================================================================== *)
(** ** The formula of the expected frequencies, in binary64 *)

Lemma shape_ieee_astype_float64 (observed : array_like) :
  shape (IEEE.astype_float64 observed) = shape (table_values observed).
Proof. destruct observed; reflexivity. Qed.

(** X1.  Over binary64, in whatever order NumPy adds the cells of a sum
    and whatever [**] computes, for an array of rank at least one:
    [margins] returns one array per axis, element [k] having every axis
    except [k] of length 1; [expected_freq] does not raise and its result
    has the shape of [observed]; and each cell is the product of the
    cells of the marginal sums that broadcasting aligns with it,
    multiplied from the first axis to the last, divided by
    [observed.sum() ** (d - 1)]. *)
Theorem expected_freq_formula
    (add_reduce : list nat -> option nat -> list binary64 -> binary64)
    (power : binary64 -> Z -> binary64) (observed : array_like) :
  1 <= ndim (IEEE.astype_float64 observed) ->
  exists margsums expected,
    IEEE.margins add_reduce (IEEE.astype_float64 observed) = Ok margsums /\
    length margsums = ndim (IEEE.astype_float64 observed) /\
    (forall k m, nth_error margsums k = Some m ->
       shape m = keep_axis k (shape (IEEE.astype_float64 observed))) /\
    IEEE.expected_freq add_reduce power observed = Ok expected /\
    shape expected = shape (IEEE.astype_float64 observed) /\
    forall idx, In idx (indices (shape expected)) ->
      exists numer,
        broadcast_fold B64.mul margsums idx = Some numer /\
        item expected idx
        = B64.div numer
            (power (IEEE.asum add_reduce (IEEE.astype_float64 observed))
               (Z.of_nat (ndim (IEEE.astype_float64 observed)) - 1)%Z).
Proof.
  intros Hn.
  destruct (@ieee_expected_freq_cells add_reduce power observed Hn)
    as (ms & e & Hms & Hlen & Hok & Hshape & Hcell).
  exists ms, e.
  split; [exact Hms|]. split; [exact Hlen|]. split.
  - intros k m Hnth.
    rewrite ieee_margins_ok in Hms. inversion Hms as [Heq]. subst ms.
    rewrite nth_error_map, nth_error_seq in Hnth.
    destruct (Nat.ltb_spec k (ndim (IEEE.astype_float64 observed)))
      as [Hk|Hk]; [|discriminate].
    simpl in Hnth. inversion Hnth. apply ieee_shape_margin. exact Hk.
  - split; [exact Hok|]. split; [exact Hshape|].
    intros idx Hin. apply Hcell. rewrite <- Hshape. exact Hin.
Qed.

Lemma expected_freq_formula_witness :
  let observed := Zs [[1; 2]; [3; 4]]%Z in
  let table := IEEE.astype_float64 observed in
  exists margsums expected,
    IEEE.margins IEEE.sum_in_order table = Ok margsums /\
    IEEE.expected_freq IEEE.sum_in_order B64.pow observed = Ok expected /\
    exists numer,
      broadcast_fold B64.mul margsums [1; 0] = Some numer /\
      item expected [1; 0]
      = B64.div numer (B64.pow (IEEE.asum IEEE.sum_in_order table) 1).
Proof.
  cbv zeta.
  destruct (@expected_freq_formula IEEE.sum_in_order B64.pow
              (Zs [[1; 2]; [3; 4]]%Z))
    as (ms & e & Hms & _ & _ & Hok & Hshape & Hcell).
  - vm_compute. lia.
  - exists ms, e. split; [exact Hms|]. split; [exact Hok|].
    apply (Hcell [1; 0]). rewrite Hshape. simpl. tauto.
Defined.

(* ================================================================== *)
(** ** Yates' correction in binary64 *)

(** C2, as the code has it.  Suppose [chi2_contingency] reaches the call
    of [power_divergence]; the expected frequencies passed on are those
    of [expected_freq].  When dof is 1 and the correction is enabled,
    every observed cell passed on is the observed value plus an
    adjustment, the sum being rounded to a double.  With [d] the
    difference [expected - observed] as float64 computes it, the
    adjustment has magnitude exactly [min(0.5, |d|)] and the sign of [d]
    (zero for a zero difference), so that unless [d] is NaN its magnitude
    is at most 0.5 and at most [|d|]: the cell is moved towards its
    expected frequency.  When dof is not 1 or the correction is disabled,
    the observed table is passed on unmodified. *)
Theorem chi2_contingency_yates
    (add_reduce : list nat -> option nat -> list binary64 -> binary64)
    (power : binary64 -> Z -> binary64) (observed : array_like)
    (correction : bool) (lambda_ lam : lambda_t)
    (f_obs f_exp : ndarray binary64) (ddof : Z)
    (k : binary64 * binary64 ->
         IEEE.comp (binary64 * binary64 * Z * ndarray binary64)) :
  IEEE.chi2_contingency add_reduce power observed correction lambda_
  = IEEE.PowerDivergence f_obs f_exp ddof lam k ->
  IEEE.expected_freq add_reduce power observed = Ok f_exp /\
  (degrees_of_freedom f_exp = 1%Z /\ correction = true ->
   forall idx, In idx (coordinates observed) ->
     let o := item (IEEE.astype_float64 observed) idx in
     let d := B64.sub (item f_exp idx) o in
     let a := IEEE.adjustment d in
     item f_obs idx = B64.add o a /\
     B64.abs a = B64.minimum B64.half (B64.abs d) /\
     (B64.ltb B64.zero d = true -> B64.ltb B64.zero a = true) /\
     (B64.ltb d B64.zero = true -> B64.ltb a B64.zero = true) /\
     (B64.eqb d B64.zero = true -> B64.eqb a B64.zero = true) /\
     (B64.is_nan d = false ->
      B64.leb (B64.abs a) B64.half = true /\
      B64.leb (B64.abs a) (B64.abs d) = true)) /\
  (~ (degrees_of_freedom f_exp = 1%Z /\ correction = true) ->
   f_obs = IEEE.astype_float64 observed).
Proof.
  intros Hcall.
  apply ieee_chi2_contingency_call_inv in Hcall.
  destruct Hcall as [Hexp Hcases]. split; [exact Hexp|]. split.
  - intros [Hdof ->] idx Hin o d a.
    destruct Hcases as [[_ Hyates] | [Hno _]];
      [|rewrite Hdof in Hno; discriminate].
    pose proof (ieee_expected_freq_shape _ _ observed Hexp) as Hshape.
    destruct (@ieee_yates_cells f_exp (IEEE.astype_float64 observed) Hshape)
      as (c & Hyok & _ & Hitem).
    assert (c = f_obs) by congruence. subst c.
    split.
    + apply Hitem. rewrite shape_ieee_astype_float64. exact Hin.
    + apply adjustment_spec.
  - intros Hnot.
    destruct Hcases as [[Hyes _] | [_ Heq]]; [|exact Heq].
    exfalso. apply Hnot. apply andb_true_iff in Hyes.
    destruct Hyes as [Hdof Hc]. split; [|exact Hc].
    apply Z.eqb_eq. exact Hdof.
Qed.

(** X11.  The size of the correction.  Suppose [chi2_contingency] reaches
    the call of [power_divergence] with dof 1 and the correction enabled,
    and let [d] be the difference [expected - observed] of a cell as
    float64 computes it.  When [d] is not zero and at most 0.5 in
    magnitude, the cell passed on is [observed + d]; when [d] exceeds 0.5
    in magnitude, it is [observed + 0.5] or [observed - 0.5], according
    to the sign of [d].  Each sum is rounded to a double. *)
Theorem chi2_contingency_yates_exact
    (add_reduce : list nat -> option nat -> list binary64 -> binary64)
    (power : binary64 -> Z -> binary64) (observed : array_like)
    (lambda_ lam : lambda_t) (f_obs f_exp : ndarray binary64) (ddof : Z)
    (k : binary64 * binary64 ->
         IEEE.comp (binary64 * binary64 * Z * ndarray binary64))
    (idx : index) :
  IEEE.chi2_contingency add_reduce power observed true lambda_
  = IEEE.PowerDivergence f_obs f_exp ddof lam k ->
  degrees_of_freedom f_exp = 1%Z ->
  In idx (coordinates observed) ->
  let o := item (IEEE.astype_float64 observed) idx in
  let d := B64.sub (item f_exp idx) o in
  (B64.eqb d B64.zero = false -> B64.leb (B64.abs d) B64.half = true ->
   item f_obs idx = B64.add o d) /\
  (B64.ltb B64.half (B64.abs d) = true -> B64.ltb B64.zero d = true ->
   item f_obs idx = B64.add o B64.half) /\
  (B64.ltb B64.half (B64.abs d) = true -> B64.ltb d B64.zero = true ->
   item f_obs idx = B64.add o (B64.opp B64.half)).
Proof.
  intros Hcall Hdof Hin o d.
  apply ieee_chi2_contingency_call_inv in Hcall.
  destruct Hcall as [Hexp [[_ Hyates] | [Hno _]]];
    [|rewrite Hdof in Hno; discriminate].
  pose proof (ieee_expected_freq_shape _ _ observed Hexp) as Hshape.
  destruct (@ieee_yates_cells f_exp (IEEE.astype_float64 observed) Hshape)
    as (c & Hyok & _ & Hitem).
  assert (c = f_obs) by congruence. subst c.
  assert (Hcell : item f_obs idx = B64.add o (IEEE.adjustment d)).
  { apply Hitem. rewrite shape_ieee_astype_float64. exact Hin. }
  rewrite Hcell. split; [|split].
  - intros Hnz Hsmall. now rewrite adjustment_small.
  - intros Hlarge Hpos.
    destruct (@adjustment_large d Hlarge) as [Hup _]. now rewrite Hup.
  - intros Hlarge Hneg.
    destruct (@adjustment_large d Hlarge) as [_ Hdown]. now rewrite Hdown.
Qed.

(** The tables below have four cells: NumPy adds the two or four cells of
    each of their sums in index order, and [x ** 1] is [x].

    On the table [[0.125, 0.125], [0.25, 7.0]] the expected frequency of
    the first cell is 0.0125, the observed value 0.125 is corrected to
    0.012499999999999997, below the expected frequency: the cell has been
    moved past it.  On the all-zero 2 x 2 table the expected frequencies
    are 0/0 = NaN and so are the corrected cells.  Both tables have one
    degree of freedom. *)
Lemma chi2_contingency_yates_past_expected :
  let chi2_contingency := IEEE.chi2_contingency IEEE.sum_in_order B64.pow in
  let floats := Qs [[1 # 8; 1 # 8]; [1 # 4; 7 # 1]] in
  let zeros := Zs [[0; 0]; [0; 0]]%Z in
  degrees_of_freedom (IEEE.astype_float64 floats) = 1%Z /\
  match IEEE.call_tables (chi2_contingency floats true LambdaNone) with
  | Some (f_obs, f_exp) =>
      nth 0 f_exp B64.zero = B64.of_Q (Q2Qc (1 # 80)) /\
      B64.ltb (nth 0 f_obs B64.zero) (nth 0 f_exp B64.zero) = true /\
      B64.ltb (nth 0 f_exp B64.zero) (B64.of_Q (Q2Qc (1 # 8))) = true
  | None => False
  end /\
  degrees_of_freedom (IEEE.astype_float64 zeros) = 1%Z /\
  match IEEE.call_tables (chi2_contingency zeros true LambdaNone) with
  | Some (f_obs, f_exp) =>
      forallb B64.is_nan f_exp = true /\ forallb B64.is_nan f_obs = true
  | None => False
  end.
Proof. vm_compute. repeat split. Qed.

Lemma chi2_contingency_yates_witness :
  let observed := Zs [[1; 2]; [3; 4]]%Z in
  match
    IEEE.chi2_contingency IEEE.sum_in_order B64.pow observed true LambdaNone
  with
  | IEEE.PowerDivergence f_obs f_exp _ _ _ =>
      let o := item (IEEE.astype_float64 observed) [0; 0] in
      let d := B64.sub (item f_exp [0; 0]) o in
      let a := IEEE.adjustment d in
      item f_obs [0; 0] = B64.add o a /\
      B64.abs a = B64.minimum B64.half (B64.abs d)
  | _ => False
  end.
Proof.
  intros observed.
  assert (Hkind : IEEE.is_call
                    (IEEE.chi2_contingency IEEE.sum_in_order B64.pow
                       observed true LambdaNone) = true)
    by (vm_compute; reflexivity).
  destruct (IEEE.chi2_contingency IEEE.sum_in_order B64.pow
              observed true LambdaNone)
    as [res | err | f_obs f_exp ddof lam k] eqn:Hcall;
    [discriminate Hkind | discriminate Hkind |].
  destruct (@chi2_contingency_yates IEEE.sum_in_order B64.pow observed true
              LambdaNone lam f_obs f_exp ddof k Hcall)
    as (Hexp & Hyates & _).
  destruct Hyates with (idx := [0; 0]) as (Hcell & Habs & _).
  - split; [|reflexivity].
    rewrite (@degrees_of_freedom_2d _ f_exp 2 2); [reflexivity|].
    rewrite (ieee_expected_freq_shape _ _ _ Hexp). reflexivity.
  - simpl. tauto.
  - split; [exact Hcell | exact Habs].
Defined.

Lemma chi2_contingency_yates_exact_witness :
  let observed := Zs [[1; 2]; [3; 4]]%Z in
  match
    IEEE.chi2_contingency IEEE.sum_in_order B64.pow observed true LambdaNone
  with
  | IEEE.PowerDivergence f_obs f_exp _ _ _ =>
      item f_exp [0; 0] = B64.of_Q (Q2Qc (6 # 5)) /\
      item f_obs [0; 0]
      = B64.add B64.one (B64.sub (B64.of_Q (Q2Qc (6 # 5))) B64.one)
  | _ => False
  end.
Proof.
  intros observed.
  assert (Hkind : IEEE.is_call
                    (IEEE.chi2_contingency IEEE.sum_in_order B64.pow
                       observed true LambdaNone) = true)
    by (vm_compute; reflexivity).
  assert (Hcell : match IEEE.expected_freq IEEE.sum_in_order B64.pow
                          observed with
                  | Ok expected => item expected [0; 0]
                  | Error _ => B64.zero
                  end = B64.of_Q (Q2Qc (6 # 5)))
    by (vm_compute; reflexivity).
  destruct (IEEE.chi2_contingency IEEE.sum_in_order B64.pow
              observed true LambdaNone)
    as [res | err | f_obs f_exp ddof lam k] eqn:Hcall;
    [discriminate Hkind | discriminate Hkind |].
  pose proof (ieee_chi2_contingency_call_inv _ _ _ _ _ Hcall) as [Hexp _].
  rewrite Hexp in Hcell. split; [exact Hcell|].
  destruct (@chi2_contingency_yates_exact IEEE.sum_in_order B64.pow
              observed LambdaNone lam f_obs f_exp ddof k [0; 0] Hcall)
    as (Hsmall & _).
  - rewrite (@degrees_of_freedom_2d _ f_exp 2 2); [reflexivity|].
    rewrite (ieee_expected_freq_shape _ _ _ Hexp). reflexivity.
  - simpl. tauto.
  - rewrite Hcell in Hsmall. apply Hsmall; vm_compute; reflexivity.
Defined.

(* ================================================================== *)
(** ** The total count in binary64 *)


(* ================================================================== *)
(** ** A single row or a single column *)

(** X14.  The degenerate case of lines 281-286 for a 2-D table.  For an
    integer table with exactly one row or one column and strictly
    positive counts, [chi2_contingency] returns statistic 0.0, p-value
    1.0, dof 0 and the expected frequencies of the table, without calling
    [power_divergence]. *)
Theorem chi2_contingency_degenerate (arr : ndarray Z) (n : nat)
    (correction : bool) (lambda_ : lambda_t) :
  shape arr = [1; n] \/ shape arr = [n; 1] ->
  1 <= n ->
  (forall idx, In idx (indices (shape arr)) -> (0 < item arr idx)%Z) ->
  exists expected,
    expected_freq (IntArray arr) = Ok expected /\
    shape expected = shape arr /\
    chi2_contingency (IntArray arr) correction lambda_
    = Return (F64.zero, F64.one, 0%Z, expected).
Proof.
  intros Hshape Hn Hpos.
  destruct (@single_line_chi2 arr n Hshape Hn Hpos correction lambda_)
    as (e & Hchi2).
  exists e.
  assert (Hexp : expected_freq (IntArray arr) = Ok e).
  { assert (Hrun : run constant_divergence
                     (chi2_contingency (IntArray arr) correction lambda_)
                   = Ok (F64.zero, F64.one, 0%Z, e))
      by (rewrite Hchi2; reflexivity).
    apply run_chi2_contingency_inv in Hrun. apply Hrun. }
  split; [exact Hexp|]. split; [|exact Hchi2].
  apply (expected_freq_shape _ Hexp).
Qed.

Lemma chi2_contingency_degenerate_witness :
  exists expected,
    expected_freq (Zs [[3; 5; 7]]%Z) = Ok expected /\
    shape expected = [1; 3] /\
    chi2_contingency (Zs [[3; 5; 7]]%Z) true LambdaNone
    = Return (F64.zero, F64.one, 0%Z, expected).
Proof.
  apply (@chi2_contingency_degenerate (array2 0%Z [[3; 5; 7]]%Z) 3).
  - left. reflexivity.
  - lia.
  - intros idx Hin. each_coordinate Hin ltac:(vm_compute; reflexivity).
Defined.

(* ================================================================== *)
(** ** An int64 total that wraps around *)

(** X17.  [arr.sum()] is an int64 sum and wraps around.  For a 2-D integer
    table whose int64 total is 0 (four cells of 2^62, say, or a table of
    zeros), whatever statistic the chi-square test produces, [phi2] is
    that statistic divided by 0, an infinity or NaN, and whenever
    [association] with method "pearson" returns, it returns NaN. *)
Theorem association_pearson_wrapped_total
    (add_reduce : list nat -> option nat -> list binary64 -> binary64)
    (power : binary64 -> Z -> binary64)
    (power_divergence : ndarray binary64 -> ndarray binary64 -> Z ->
                        lambda_t -> result (binary64 * binary64))
    (arr : ndarray Z) (correction : bool) (lambda_ : lambda_t)
    (value : binary64) :
  int64_sum arr = 0%Z ->
  IEEE.run power_divergence
    (IEEE.association add_reduce power (IntArray arr) "pearson"
       correction lambda_) = Ok value ->
  B64.is_nan value = true.
Proof.
  intros Hsum. unfold IEEE.association.
  destruct (negb (length (shape arr) =? 2)); [discriminate|].
  rewrite ieee_run_cbind.
  destruct (IEEE.run power_divergence
              (IEEE.chi2_contingency add_reduce power (IntArray arr)
                 correction lambda_)) as [chi2_stat | e]; [|discriminate].
  cbn [rbind]. rewrite Hsum, b64_of_Z_zero.
  rewrite ieee_run_cbind.
  change (String.eqb "pearson" "cramer") with false.
  change (String.eqb "pearson" "tschuprow") with false.
  change (String.eqb "pearson" "pearson") with true.
  cbv iota. cbn [IEEE.run rbind]. rewrite pearson_zero_total.
  vm_compute. intros H. inversion H. reflexivity.
Qed.

Lemma association_pearson_wrapped_total_witness :
  let big := (2 ^ 62)%Z in
  let arr := array2 0%Z [[big; big]; [big; big]] in
  asum arr = (2 ^ 64)%Z /\
  exists value,
    IEEE.run (fun _ _ _ _ => Ok (B64.zero, B64.one))
      (IEEE.association IEEE.sum_in_order B64.pow (IntArray arr) "pearson"
         true LambdaNone) = Ok value /\
    B64.is_nan value = true.
Proof.
  cbv zeta. split; [vm_compute; reflexivity|].
  exists PrimFloat.nan.
  assert (Hrun :
    IEEE.run (fun _ _ _ _ => Ok (B64.zero, B64.one))
      (IEEE.association IEEE.sum_in_order B64.pow
         (IntArray (array2 0%Z [[2 ^ 62; 2 ^ 62]; [2 ^ 62; 2 ^ 62]]%Z))
         "pearson" true LambdaNone) = Ok PrimFloat.nan)
    by (vm_compute; reflexivity).
  split; [exact Hrun|].
  apply (@association_pearson_wrapped_total IEEE.sum_in_order B64.pow
           (fun _ _ _ _ => Ok (B64.zero, B64.one))
           (array2 0%Z [[2 ^ 62; 2 ^ 62]; [2 ^ 62; 2 ^ 62]]%Z)
           true LambdaNone PrimFloat.nan).
  - vm_compute. reflexivity.
  - exact Hrun.
Defined.
